(** * Review Summarizer extension: the scraping and cleaning pipeline

    A shallow embedding of the code injected into the active tab by
    [extension/popup.js] (function [queryActiveTabAndScrape], lines 18-120):
    [cleanReviewText], [gatherTextFromSelectors], the title loop and the
    object that is returned to the popup.

    JavaScript strings are sequences of UTF-16 code units; they are modelled
    as lists of [N].  The regular expressions of the source are modelled by a
    small backtracking matcher over the constructs the source uses (pattern
    characters, the classes [\d], [.] and [\s], greedy repetition), and
    [String.prototype.replace] with a global regular expression by a
    left-to-right scan. *)

From Stdlib Require Import NArith Ascii Bool.
From Stdlib Require Strings.String DecimalString.
From stdpp Require Import base option list gmap strings.
Import String.StringSyntax.
Delimit Scope string_scope with string.

Local Open Scope N_scope.
Local Open Scope nat_scope.

(** ** Strings *)

Abbreviation jsstring := (list N).

(** A string literal of the source, as code units (ASCII only). *)
Definition js (s : String.string) : jsstring :=
  map N_of_ascii (String.list_ascii_of_string s).
Arguments js s%_string.

Definition LF : N := 10%N.
Definition TAB : N := 9%N.
Definition SP : N := 32%N.

(** ECMAScript LineTerminator: LF, CR, U+2028, U+2029. *)
Definition is_line_terminator (x : N) : bool :=
  (x =? 10)%N || (x =? 13)%N || (x =? 8232)%N || (x =? 8233)%N.

(** ECMAScript WhiteSpace and LineTerminator, the set that both
    [String.prototype.trim] and the class [\s] use: TAB, VT, FF, SP, NBSP,
    the category Zs, U+FEFF, and the line terminators. *)
Definition is_ws (x : N) : bool :=
  ((9 <=? x)%N && (x <=? 13)%N) || (x =? 32)%N || (x =? 160)%N
  || (x =? 5760)%N || ((8192 <=? x)%N && (x <=? 8202)%N)
  || (x =? 8232)%N || (x =? 8233)%N || (x =? 8239)%N || (x =? 8287)%N
  || (x =? 12288)%N || (x =? 65279)%N.

Definition is_digit (x : N) : bool := (48 <=? x)%N && (x <=? 57)%N.

(** [Canonicalize] of a regular expression with the [i] flag and without the
    [u] flag maps a code unit to its upper case, except that a code unit
    above 127 is never mapped to one below 128.  Every pattern character of
    the source is ASCII, so a code unit above 127 never equals a pattern
    character after canonicalization, whatever its upper case is; leaving the
    code units above 127 unchanged therefore decides the same comparisons as
    the full Unicode mapping. *)
Definition Canonicalize (x : N) : N :=
  if (97 <=? x)%N && (x <=? 122)%N then (x - 32)%N else x.

(** [String.prototype.trimStart], [trimEnd] and [trim]. *)
Fixpoint trimStart (s : jsstring) : jsstring :=
  match s with
  | x :: s' => if is_ws x then trimStart s' else s
  | [] => []
  end.

Fixpoint trimEnd (s : jsstring) : jsstring :=
  match s with
  | x :: s' =>
      match trimEnd s' with
      | [] => if is_ws x then [] else [x]
      | t => x :: t
      end
  | [] => []
  end.

Definition trim (s : jsstring) : jsstring := trimEnd (trimStart s).

(** [s.includes(c)] for a one-character search string. *)
Definition includes (c : N) (s : jsstring) : bool := existsb (N.eqb c) s.

(** [s.split(sep)] for a one-character separator: never the empty array,
    [split sep [] = [[]]]. *)
Fixpoint split (sep : N) (s : jsstring) : list jsstring :=
  match s with
  | [] => [[]]
  | x :: s' =>
      if (x =? sep)%N then [] :: split sep s'
      else match split sep s' with
           | l :: ls => (x :: l) :: ls
           | [] => [[x]]
           end
  end.

(** [Array.prototype.join]. *)
Fixpoint join (sep : jsstring) (ls : list jsstring) : jsstring :=
  match ls with
  | [] => []
  | [l] => l
  | l :: ls' => l ++ sep ++ join sep ls'
  end.

(** ** Regular expressions *)

Inductive cclass := Digit | Dot | Space.

Definition in_class (k : cclass) (x : N) : bool :=
  match k with
  | Digit => is_digit x
  | Dot => negb (is_line_terminator x)
  | Space => is_ws x
  end.

(** The terms of a pattern: a pattern character, a class, and a class under
    the greedy quantifier [*]. *)
Inductive atom :=
| Char (c : N)
| Class (k : cclass)
| Star (k : cclass).

(** [k+] is [k k*]. *)
Definition Plus (k : cclass) : list atom := [Class k; Star k].

Record RegExp := { source : list atom; ignoreCase : bool }.

Definition char_eq (ic : bool) (c x : N) : bool :=
  if ic then (Canonicalize x =? Canonicalize c)%N else (x =? c)%N.

(** Whether one term accepts one code unit. *)
Definition accepts (ic : bool) (a : atom) (x : N) : bool :=
  match a with
  | Char c => char_eq ic c x
  | Class k | Star k => in_class k x
  end.

(** The backtracking matcher, anchored at the start of [s]: the number of
    code units of the first match in priority order (the greedy quantifier
    takes a code unit before it tries the rest of the pattern), [None] when
    every alternative fails. *)
Fixpoint match_at (ic : bool) (p : list atom) (s : jsstring) {struct p}
  : option nat :=
  match p with
  | [] => Some 0
  | Char c :: p' =>
      match s with
      | x :: s' => if char_eq ic c x then S <$> match_at ic p' s' else None
      | [] => None
      end
  | Class k :: p' =>
      match s with
      | x :: s' => if in_class k x then S <$> match_at ic p' s' else None
      | [] => None
      end
  | Star k :: p' =>
      (fix star (s : jsstring) : option nat :=
         match s with
         | x :: s' =>
             if in_class k x then
               match star s' with
               | Some n => Some (S n)
               | None => match_at ic p' s
               end
             else match_at ic p' s
         | [] => match_at ic p' s
         end) s
  end.

Definition exec_at (re : RegExp) (s : jsstring) : option nat :=
  match_at (ignoreCase re) (source re) s.

(** [s.replace(re, r)] for a global [re] and a replacement [r] without [$]:
    the scan of the global flag.  [skip] is the number of code units still
    covered by the last match ([lastIndex] lies that far ahead); at [skip = 0]
    the expression is tried at the current position, a non-empty match is
    replaced by [r] and the scan resumes behind it, after an empty match [r]
    is inserted and the scan moves one code unit on, and where nothing
    matches the code unit is kept. *)
Fixpoint replace_from (re : RegExp) (r : jsstring) (skip : nat) (s : jsstring)
  : jsstring :=
  match skip, s with
  | S k, _ :: s' => replace_from re r k s'
  | S _, [] => []
  | 0, x :: s' =>
      match exec_at re s with
      | Some (S n) => r ++ replace_from re r n s'
      | Some 0 => r ++ x :: replace_from re r 0 s'
      | None => x :: replace_from re r 0 s'
      end
  | 0, [] =>
      match exec_at re [] with
      | Some _ => r
      | None => []
      end
  end.

Definition replace (re : RegExp) (r : jsstring) (s : jsstring) : jsstring :=
  replace_from re r 0 s.

(** [re.test(s)] for a non-sticky expression: some position of [s], the end
    included, starts a match. *)
Fixpoint occurs (re : RegExp) (s : jsstring) : bool :=
  match exec_at re s with
  | Some _ => true
  | None => match s with
            | _ :: s' => occurs re s'
            | [] => false
            end
  end.

(** ** The cleaner *)

Definition lit (s : String.string) : list atom := map Char (js s).
Arguments lit s%_string.

Definition star_rating : RegExp :=
  {| source := [Class Digit; Char 46%N; Class Digit] ++ lit " out of 5 stars";
     ignoreCase := true |}.
Definition reviewed_in_India : RegExp :=
  {| source := lit "Reviewed in India on " ++ [Star Dot]; ignoreCase := true |}.
Definition reviewed_in_UAE : RegExp :=
  {| source := lit "Reviewed in the United Arab Emirates on " ++ [Star Dot];
     ignoreCase := true |}.
Definition verified_purchase : RegExp :=
  {| source := lit "Verified Purchase"; ignoreCase := true |}.
Definition helpful : RegExp :=
  {| source := lit "Helpful"; ignoreCase := true |}.
Definition report : RegExp :=
  {| source := lit "Report"; ignoreCase := true |}.
Definition people_found_helpful : RegExp :=
  {| source := Plus Digit ++ lit " people found this helpful";
     ignoreCase := true |}.
Definition one_person_found_helpful : RegExp :=
  {| source := lit "One person found this helpful"; ignoreCase := true |}.

Definition noisePatterns : list RegExp :=
  [ star_rating; reviewed_in_India; reviewed_in_UAE; verified_purchase;
    helpful; report; people_found_helpful; one_person_found_helpful ].

(** [/\s\s+/g] *)
Definition ws_run : RegExp :=
  {| source := Class Space :: Plus Space; ignoreCase := false |}.

(** Step 1 of [cleanReviewText]: the patterns in turn, each over the text the
    earlier ones left. *)
Definition strip_noise (text : jsstring) : jsstring :=
  fold_left (fun cleanedText pattern => replace pattern [] cleanedText)
            noisePatterns text.

(** The predicate of [lines.filter]. *)
Definition keep_line (line : jsstring) : bool :=
  let trimmed := trim line in
  (15 <? length trimmed) && includes SP trimmed.

Definition cleanReviewText (text : jsstring) : jsstring :=
  match text with
  | [] => []
  | _ =>
      let cleanedText := strip_noise text in
      let lines := split LF cleanedText in
      let cleanLines := List.filter keep_line lines in
      trim (replace ws_run [SP] (join [SP] cleanLines))
  end.


(** ** Exceptions

    A JavaScript computation either completes normally with a value or
    throws.  [try_catch] is [try { c } catch (e) { h e }]. *)

Inductive exn :=
| Error (message : String.string)
| DOMException (name : String.string).

Inductive completion (A : Type) :=
| Normal (a : A)
| Throw (e : exn).
Arguments Normal {A} a.
Arguments Throw {A} e.

Global Instance completion_ret : MRet completion := fun A a => Normal a.
Global Instance completion_bind : MBind completion := fun A B f c =>
  match c with
  | Normal a => f a
  | Throw e => Throw e
  end.

Definition try_catch {A} (c : completion A) (h : exn -> completion A)
  : completion A :=
  match c with
  | Normal a => Normal a
  | Throw e => h e
  end.

(** [l.forEach(x => body)] where the body updates the variables [S] that the
    callback closes over and may throw. *)
Fixpoint forEach {A S} (body : S -> A -> completion S) (l : list A) (st : S)
  : completion S :=
  match l with
  | [] => Normal st
  | a :: l' => st' ← body st a; forEach body l' st'
  end.

(** ** The document

    What the injected code reads of the page: the elements a selector
    matches, in document order, or the exception the query throws, and the
    address of the page.  An element is read through [innerText], which only
    HTML elements have, and [textContent]. *)

Record Element := {
  innerText : option jsstring;
  textContent : option jsstring
}.

Record Document := {
  querySelectorAll : String.string -> completion (list Element);
  href : jsstring
}.

(** [document.querySelector(s)]: the first element [querySelectorAll] would
    return, or null; it throws on the same selectors. *)
Definition querySelector (document : Document) (s : String.string)
  : completion (option Element) :=
  els ← querySelectorAll document s; Normal (head els).

(** Truthiness of a value that is a string or undefined. *)
Definition truthy (v : option jsstring) : bool :=
  match v with
  | Some (_ :: _) => true
  | _ => false
  end.

(** [a || b] *)
Definition js_or (a b : option jsstring) : option jsstring :=
  if truthy a then a else b.

(** [el.innerText || el.textContent] *)
Definition element_text (el : Element) : option jsstring :=
  js_or (innerText el) (textContent el).

(** ** The collector *)

(** The two variables of [gatherTextFromSelectors] that the callbacks
    update. *)
Record store := {
  out : list jsstring;
  uniqueTexts : gset jsstring
}.

(** [(el.innerText || el.textContent || '').trim()] *)
Definition rawText (el : Element) : jsstring :=
  trim (default [] (js_or (element_text el) (Some []))).

(** The body of the inner [forEach], lines 70-77. *)
Definition visit (st : store) (el : Element) : store :=
  let cleanedText := cleanReviewText (rawText el) in
  if truthy (Some cleanedText) && (20 <? length cleanedText)
     && negb (bool_decide (cleanedText ∈ uniqueTexts st))
  then {| out := out st ++ [cleanedText];
          uniqueTexts := {[cleanedText]} ∪ uniqueTexts st |}
  else st.

(** The body of the outer [forEach], lines 68-81.  Only the query can throw,
    and it does so before the first element is visited, so the handler
    resumes from the store as it was. *)
Definition visit_selector (document : Document) (st : store)
  (sel : String.string) : completion store :=
  try_catch
    (els ← querySelectorAll document sel; Normal (foldl visit st els))
    (fun _ => Normal st).

Definition gatherTextFromSelectors (document : Document)
  (selectors : list String.string) : completion (list jsstring) :=
  st ← forEach (visit_selector document) selectors
               {| out := []; uniqueTexts := ∅ |};
  Normal (out st).

(** The double quote, for the selector that contains two. *)
Definition dquote : String.string :=
  String.String (ascii_of_nat 34) String.EmptyString.

Definition reviewSelectors : list String.string :=
  [ "#cm_cr-review_list .review-text-content span";
    String.concat dquote ["[data-hook="; "review-body"; "] span"];
    ".review-text"; ".a-section.review"; ".q4Rxxz"; "._16PBlm";
    ".comment"; ".review" ]%string.

(** ** The title loop, lines 101-111

    One turn of the loop either breaks with the title or goes on to the next
    selector. *)
Definition title_turn (document : Document) (s : String.string)
  : completion (option jsstring) :=
  try_catch
    (el ← querySelector document s;
     match el with
     | Some el =>
         if truthy (element_text el)
         then Normal (Some (trim (default [] (element_text el))))
         else Normal None
     | None => Normal None
     end)
    (fun _ => Normal None).

Fixpoint resolveTitle (document : Document) (selectors : list String.string)
  (title : jsstring) : completion jsstring :=
  match selectors with
  | [] => Normal title
  | s :: rest =>
      r ← title_turn document s;
      match r with
      | Some t => Normal t
      | None => resolveTitle document rest title
      end
  end.

Definition titleSelectors : list String.string :=
  [ "#productTitle"; ".B_NuCI"; "h1"; ".yhB1nd"; ".itvQmW" ]%string.

(** ** The injected function, lines 18-120 *)

Record ExtractionResult := {
  reviews : list jsstring;
  title : jsstring;
  url : jsstring
}.

(** The body of the injected function over its two selector lists. *)
Definition injected_with (reviewSelectors titleSelectors : list String.string)
  (document : Document) : completion ExtractionResult :=
  found ← gatherTextFromSelectors document reviewSelectors;
  t ← resolveTitle document titleSelectors [];
  Normal {| reviews := take 30 found; title := t; url := href document |}.

Definition injected : Document -> completion ExtractionResult :=
  injected_with reviewSelectors titleSelectors.

(** ** The caller's check, lines 196-199

    [summarize] turns an empty review list into an error of its own. *)
Definition no_reviews_message : String.string :=
  String.concat dquote
    ["No reviews found on this page. Try opening the "; "all reviews";
     " section."]%string.

Definition summarize_check (scraped : ExtractionResult)
  : completion ExtractionResult :=
  if (length (reviews scraped) =? 0)%nat
  then Throw (Error no_reviews_message)
  else Normal scraped.

(** * Specification-level definitions *)

(** ** The cleaner *)

(** [u] is, term by term, a match of a pattern without quantifier. *)
Fixpoint fits (ic : bool) (p : list atom) (u : jsstring) : bool :=
  match p, u with
  | [], [] => true
  | Char c :: p', x :: u' => char_eq ic c x && fits ic p' u'
  | Class k :: p', x :: u' => in_class k x && fits ic p' u'
  | _, _ => false
  end.

(** The same text up to the case of its letters. *)
Definition same_letters (u v : jsstring) : Prop :=
  map Canonicalize u = map Canonicalize v.

(** No match of [re] starts inside [u] when [t] follows. *)
Definition never_starts (re : RegExp) (u t : jsstring) : bool :=
  forallb (fun k => match exec_at re (drop k u ++ t) with
                    | None => true
                    | Some _ => false
                    end)
          (seq 0 (length u)).

(** [Cut re t r]: [r] is [t] without the matches that the scan of [re]
    finds in it.  [t] is [u0 m1 u1 ... mk uk] where each [mi] is a non-empty
    match of [re] at its position and no kept stretch [ui] contains an
    occurrence of [re], and [r] is [u0 u1 ... uk]. *)
Inductive Cut (re : RegExp) : jsstring -> jsstring -> Prop :=
| Cut_end u : occurs re u = false -> Cut re u u
| Cut_match u m t r :
    occurs re u = false ->
    m ≠ [] ->
    exec_at re (m ++ t) = Some (length m) ->
    Cut re t r ->
    Cut re (u ++ m ++ t) (u ++ r).

(** [Passes res t r]: [r] is [t] after one [Cut] for each pattern of [res]
    in turn, each on the text the cuts before it left. *)
Inductive Passes : list RegExp -> jsstring -> jsstring -> Prop :=
| Passes_nil t : Passes [] t t
| Passes_cons re res t t' r :
    Cut re t t' -> Passes res t' r -> Passes (re :: res) t r.

(** A term that takes one code unit. *)
Definition consuming (a : atom) : bool :=
  match a with
  | Star _ => false
  | _ => true
  end.

(** The number of code units of class [k] at the start of [s]. *)
Fixpoint class_prefix (k : cclass) (s : jsstring) : nat :=
  match s with
  | x :: s' => if in_class k x then S (class_prefix k s') else 0
  | [] => 0
  end.

(** Two terms that accept no code unit in common (a sufficient test). *)
Definition classes_disjoint (k1 k2 : cclass) : bool :=
  match k1, k2 with
  | Digit, Space | Space, Digit => true
  | _, _ => false
  end.

Definition atoms_disjoint (ic : bool) (a b : atom) : bool :=
  match a, b with
  | Char c1, Char c2 => negb (char_eq ic c1 c2)
  | Char c, Class k => negb (in_class k (if ic then Canonicalize c else c))
  | Class k, Char c => negb (in_class k (if ic then Canonicalize c else c))
  | Class k1, Class k2 => classes_disjoint k1 k2
  | _, _ => false
  end.

(** No match of the quantifier-free pattern [p] overlaps another one: for
    every shift [d] some term of [p] and the term [d] places on exclude each
    other. *)
Definition border_free (ic : bool) (p : list atom) : bool :=
  forallb
    (fun d =>
       existsb (fun k => match p !! k, p !! (d + k) with
                         | Some a, Some b => atoms_disjoint ic a b
                         | _, _ => false
                         end)
               (seq 0 (length p - d)))
    (seq 1 (length p - 1)).



(** The lines that [cleanReviewText] keeps of a text. *)
Definition cleanLines (text : jsstring) : list jsstring :=
  List.filter keep_line (split LF (strip_noise text)).

(** Step 3 of [cleanReviewText]. *)
Definition rejoin (lines : list jsstring) : jsstring :=
  trim (replace ws_run [SP] (join [SP] lines)).

(** *** Whitespace *)

Definition starts_ws (s : jsstring) : bool :=
  match s with
  | x :: _ => is_ws x
  | [] => false
  end.

Definition all_ws (s : jsstring) : bool := forallb is_ws s.

(** The number of whitespace code units at the start of [s]. *)
Fixpoint ws_prefix (s : jsstring) : nat :=
  match s with
  | x :: s' => if is_ws x then S (ws_prefix s') else 0
  | [] => 0
  end.

(** Two whitespace code units in a row somewhere in [s]. *)
Fixpoint ws_pair (s : jsstring) : bool :=
  match s with
  | x :: s' => (is_ws x && starts_ws s') || ws_pair s'
  | [] => false
  end.

(** A space of [s] with a code unit other than whitespace somewhere behind
    it, and such a space behind the first code unit other than whitespace: a
    space that [trim] leaves in place. *)
Fixpoint space_before_text (s : jsstring) : bool :=
  match s with
  | x :: s' => ((x =? SP)%N && negb (all_ws s')) || space_before_text s'
  | [] => false
  end.

Fixpoint space_inside (s : jsstring) : bool :=
  match s with
  | x :: s' => if is_ws x then space_inside s' else space_before_text s'
  | [] => false
  end.

(** [Collapsed s r]: [r] is [s] with every maximal run of two or more
    whitespace code units replaced by one space, and every other code unit,
    a lone whitespace one included, as it is. *)
Inductive Collapsed : jsstring -> jsstring -> Prop :=
| Collapsed_nil : Collapsed [] []
| Collapsed_text x s r :
    is_ws x = false -> Collapsed s r -> Collapsed (x :: s) (x :: r)
| Collapsed_lone x s r :
    is_ws x = true -> starts_ws s = false -> Collapsed s r ->
    Collapsed (x :: s) (x :: r)
| Collapsed_run x y w s r :
    is_ws x = true -> is_ws y = true -> all_ws w = true ->
    starts_ws s = false -> Collapsed s r ->
    Collapsed (x :: y :: w ++ s) (SP :: r).

(** Every run of whitespace, of whatever length, replaced by one space. *)
Fixpoint collapse_every_run (s : jsstring) : jsstring :=
  match s with
  | x :: s' =>
      if is_ws x then
        if starts_ws s' then collapse_every_run s'
        else SP :: collapse_every_run s'
      else x :: collapse_every_run s'
  | [] => []
  end.

(** The cleaner with every run of whitespace collapsed to one space. *)
Definition clean_every_run_collapsed (text : jsstring) : jsstring :=
  trim (collapse_every_run
          (join [SP] (List.filter keep_line (split LF (strip_noise text))))).

(** ** The collector and the title *)

(** The elements a selector contributes: none when its query throws. *)
Definition matched (document : Document) (sel : String.string)
  : list Element :=
  match querySelectorAll document sel with
  | Normal els => els
  | Throw _ => []
  end.

Definition throws {A} (c : completion A) : bool :=
  match c with
  | Throw _ => true
  | Normal _ => false
  end.

(** The cleaned texts in discovery order: selector-list order, then document
    order within a selector. *)
Definition candidates (document : Document) (selectors : list String.string)
  : list jsstring :=
  flat_map (fun sel =>
              map (fun el => cleanReviewText (rawText el))
                  (matched document sel))
           selectors.

(** The invariant of the collector: the set [uniqueTexts] holds exactly the
    strings of [out]. *)
Definition store_inv (st : store) : Prop :=
  ∀ t, t ∈ uniqueTexts st ↔ t ∈ out st.

(** Each string at its first position only. *)
Fixpoint first_occurrences (l : list jsstring) : list jsstring :=
  match l with
  | [] => []
  | x :: l' => x :: filter (fun y => y ≠ x) (first_occurrences l')
  end.

(** The non-empty text of the first element a selector matches: the rendered
    text when there is some, else the raw text content. *)
Definition title_text (document : Document) (s : String.string)
  : option jsstring :=
  match matched document s with
  | el :: _ =>
      match innerText el, textContent el with
      | Some (x :: t), _ => Some (x :: t)
      | _, Some (x :: t) => Some (x :: t)
      | _, _ => None
      end
  | [] => None
  end.


(** A page on which no selector matches anything. *)
Definition page_blank : Document :=
  {| querySelectorAll := fun _ => Normal [];
     href := js "https://shop.example/" |}.

(** A page with one review and a heading. *)
Definition page_one_review : Document :=
  {| querySelectorAll := fun s =>
       if String.eqb s ".review-text"
       then Normal [ {| innerText :=
                          Some (js "Great battery life and build quality overall");
                        textContent := None |} ]
       else if String.eqb s "h1"
       then Normal [ {| innerText := Some (js "Wireless Mouse");
                        textContent := Some (js "Wireless Mouse") |} ]
       else Normal [];
     href := js "https://shop.example/item/1" |}.

(** A page whose product title element holds only blanks, before a heading
    with the name of the product. *)
Definition page_blank_title : Document :=
  {| querySelectorAll := fun s =>
       if String.eqb s "#productTitle"
       then Normal [ {| innerText := Some (js "   ");
                        textContent := Some (js "   ") |} ]
       else if String.eqb s "h1"
       then Normal [ {| innerText := Some (js "Wireless Mouse");
                        textContent := Some (js "Wireless Mouse") |} ]
       else Normal [];
     href := js "https://shop.example/item/2" |}.

(** A page on which the first review selector and the first title selector
    are rejected as selectors, before selectors that match. *)
Definition page_bad_selector : Document :=
  {| querySelectorAll := fun s =>
       if String.eqb s ".review:has(" || String.eqb s "#title::"
       then Throw (DOMException "SyntaxError")
       else if String.eqb s ".review-text"
       then Normal [ {| innerText :=
                          Some (js "Great battery life and build quality overall");
                        textContent := None |} ]
       else if String.eqb s "h1"
       then Normal [ {| innerText := Some (js "Wireless Mouse");
                        textContent := Some (js "Wireless Mouse") |} ]
       else Normal [];
     href := js "https://shop.example/item/3" |}.

(** * The popup, lines 3-9 and 11-218

    The code around the injected function runs in the popup: it asks the
    browser for the active tab and has the function run there, sends what
    comes back to the backend, and shows the answer or the error.  The
    browser, the network and the backend are a [Host]; the popup's own
    document and the requests a run has made are the [world] that the code
    changes.  A rejected promise is a thrown value, and a thrown value is
    any value.  A run gives way at each [await]: what the other handlers of
    the popup (another run of [summarize] from a second click, the handler
    of the page load) do to the popup in the meantime is part of the
    [Host]. *)

Module Popup.

Inductive nullish := undefined | null.

(** A thrown value: [undefined] or [null]; another primitive, given by what
    [String] makes of it; or an object with a name and a message, as the
    [Error] objects of the source and of the host are. *)
Inductive thrown :=
| Nullish (v : nullish)
| Primitive (string_of : jsstring)
| ErrorObject (name message : jsstring).

Definition new_Error (m : jsstring) : thrown := ErrorObject (js "Error") m.

(** [String(err)]; for an object it is [Error.prototype.toString]. *)
Definition toString (err : thrown) : jsstring :=
  match err with
  | Nullish undefined => js "undefined"
  | Nullish null => js "null"
  | Primitive s => s
  | ErrorObject [] m => m
  | ErrorObject n [] => n
  | ErrorObject n m => n ++ js ": " ++ m
  end.

Inductive outcome (A : Type) :=
| Return (a : A)
| Raise (err : thrown).
Arguments Return {A} a.
Arguments Raise {A} err.

(** The content of an element of the popup: what an assignment to
    [innerText] leaves, and list items. *)
Inductive child :=
| Text (t : jsstring)
| Li (t : jsstring).

Record HTMLElement := {
  classList : gset String.string;
  children : list child
}.

(** The elements of the popup by their id, and the bodies the run has
    passed to [fetch]. *)
Record world := {
  elements : gmap String.string HTMLElement;
  requests : list ExtractionResult
}.

(** A computation of the popup: it may change the world before it returns
    or throws. *)
Definition M (A : Type) : Type := world -> outcome A * world.

Definition ret {A} (a : A) : M A := fun w => (Return a, w).
Definition throw {A} (err : thrown) : M A := fun w => (Raise err, w).
Definition bind {A B} (c : M A) (k : A -> M B) : M B := fun w =>
  match c w with
  | (Return a, w') => k a w'
  | (Raise err, w') => (Raise err, w')
  end.
Definition try_catch {A} (c : M A) (h : thrown -> M A) : M A := fun w =>
  match c w with
  | (Return a, w') => (Return a, w')
  | (Raise err, w') => h err w'
  end.
(** An [await] of a value that follows the [await] of a host call with no
    statement on the popup in between: the two waits count as the one of
    the call. *)
Definition settled {A} (c : outcome A) : M A := fun w => (c, w).

Notation "x <- c ;; k" := (bind c (fun x => k))
  (at level 100, c at next level, right associativity).
Notation "c ;;; k" := (bind c (fun _ => k))
  (at level 100, right associativity).

(** [$(id)?.] followed by a change of the element. *)
Definition update (id : String.string) (f : HTMLElement -> HTMLElement)
  : M unit := fun w =>
  (Return tt,
   {| elements := alter f id (elements w); requests := requests w |}).

Definition without_hidden (el : HTMLElement) : HTMLElement :=
  {| classList := classList el ∖ {["hidden"%string]};
     children := children el |}.

Definition with_hidden (el : HTMLElement) : HTMLElement :=
  {| classList := {["hidden"%string]} ∪ classList el;
     children := children el |}.

Definition show (id : String.string) : M unit := update id without_hidden.

Definition hide (id : String.string) : M unit := update id with_hidden.

(** The content after [el.innerText = text]. *)
Definition text_content (text : jsstring) : list child :=
  match text with
  | [] => []
  | _ => [Text text]
  end.

Definition with_text (text : jsstring) (el : HTMLElement) : HTMLElement :=
  {| classList := classList el; children := text_content text |}.

Definition setText (id : String.string) (text : jsstring) : M unit :=
  update id (with_text text).

(** ** The host *)

Record Tab := { tabId : N }.

Record InjectionResult := { result : option ExtractionResult }.

(** The answer of the backend as the popup reads it: [raw] when it is a
    string, the two lists (empty when absent), the sentiment and the summary
    when they are strings, the score when it is a number. *)
Record Data (Number : Type) := {
  raw : option jsstring;
  pros : list jsstring;
  cons : list jsstring;
  overall_sentiment : option jsstring;
  score : option Number;
  one_line_summary : option jsstring
}.
Arguments raw {Number} _.
Arguments pros {Number} _.
Arguments cons {Number} _.
Arguments overall_sentiment {Number} _.
Arguments score {Number} _.
Arguments one_line_summary {Number} _.

Record Response (Number : Type) := {
  ok : bool;
  status : N;
  text : outcome jsstring;
  json : outcome (Data Number)
}.
Arguments ok {Number} _.
Arguments status {Number} _.
Arguments text {Number} _.
Arguments json {Number} _.

(** The calls a run waits for. *)
Inductive call := TabsQuery | ExecuteScript | Fetch.

(** What the code calls and does not define: [chrome.tabs.query],
    [chrome.scripting.executeScript], [fetch], [toFixed(2)] of a number and
    the message of the type error for a property of [undefined] or [null];
    and what the other handlers do to the elements of the popup while a run
    waits for a call.  The answer of a call does not depend on the popup. *)
Record Host (Number : Type) := {
  tabs_query : outcome (list Tab);
  executeScript : Tab -> outcome (list InjectionResult);
  fetch : ExtractionResult -> outcome (Response Number);
  toFixed2 : Number -> jsstring;
  type_error_message : nullish -> String.string -> jsstring;
  meanwhile : call -> gmap String.string HTMLElement
              -> gmap String.string HTMLElement
}.
Arguments tabs_query {Number} _.
Arguments executeScript {Number} _ _.
Arguments fetch {Number} _ _.
Arguments toFixed2 {Number} _ _.
Arguments type_error_message {Number} _ _ _.
Arguments meanwhile {Number} _ _ _.

(** A status code in a template literal. *)
Definition decimal (n : N) : jsstring :=
  js (DecimalString.NilEmpty.string_of_uint (N.to_uint n)).

Section Run.
Context {Number : Type} (host : Host Number).

(** The type error for a property of [undefined] or [null]. *)
Definition TypeError (v : nullish) (property : String.string) : thrown :=
  ErrorObject (js "TypeError") (type_error_message host v property).

(** The type error of [$(id).innerHTML = ...] where there is no such
    element. *)
Definition null_property : thrown := TypeError null "innerHTML".

(** [await] of a host call: the popup is what the other handlers made of it
    when the run goes on. *)
Definition await {A} (c : call) (answer : outcome A) : M A := fun w =>
  (answer,
   {| elements := meanwhile host c (elements w); requests := requests w |}).

(** Lines 12-126. *)
Definition queryActiveTabAndScrape : M ExtractionResult :=
  tabs <- await TabsQuery (tabs_query host) ;;
  match head tabs with
  | None => throw (new_Error (js "No active tab found."))
  | Some tab =>
      results <- await ExecuteScript (executeScript host tab) ;;
      match head results ≫= result with
      | None => throw (new_Error (js "Failed to scrape the page."))
      | Some scraped => ret scraped
      end
  end.

(** Lines 129-141.  The request is on record as soon as [fetch] is
    called. *)
Definition callBackend (reviewsObj : ExtractionResult) : M (Data Number) :=
  fun w =>
  let w' := {| elements := elements w;
               requests := requests w ++ [reviewsObj] |} in
  (response <- await Fetch (fetch host reviewsObj) ;;
   if ok response then settled (json response)
   else
     let body := match text response with
                 | Return t => t
                 | Raise _ => []
                 end in
     throw (new_Error (js "Backend request failed: "
                       ++ decimal (status response) ++ [SP] ++ body))) w'.

(** [$(id).innerHTML = ...] with the items the markup stands for; the
    element must exist. *)
Definition set_items (id : String.string) (items : list child) : M unit :=
  fun w =>
  match elements w !! id with
  | None => (Raise null_property, w)
  | Some _ =>
      update id (fun el => {| classList := classList el;
                              children := items |}) w
  end.

(** Lines 164-174 and 176-186: the list is emptied, then filled with one
    item for each entry or with the placeholder. *)
Definition fill_list (id : String.string) (entries : list jsstring)
  (placeholder : jsstring) : M unit :=
  set_items id [] ;;;
  match entries with
  | [] => set_items id [Li placeholder]
  | _ => set_items id (map Li entries)
  end.

Definition or_default (v : option jsstring) (d : jsstring) : jsstring :=
  match v with
  | Some (x :: t) => x :: t
  | _ => d
  end.

Definition em_dash : jsstring := [8212%N].

(** Lines 144-187. *)
Definition renderResults (data : Data Number) : M unit :=
  match raw data with
  | Some (x :: t) =>
      setText "oneLine" (trim (x :: t)) ;;;
      setText "sentimentBadge" em_dash ;;;
      setText "scoreBadge" [] ;;;
      set_items "prosList" [] ;;;
      set_items "consList" []
  | _ =>
      let overall := or_default (overall_sentiment data) (js "N/A") in
      let oneLine := or_default (one_line_summary data) [] in
      setText "oneLine"
        (or_default (Some oneLine)
           (overall ++ js " ("
            ++ match score data with
               | Some x => toFixed2 host x
               | None => em_dash
               end ++ js ")")) ;;;
      setText "sentimentBadge" overall ;;;
      setText "scoreBadge"
        match score data with
        | Some x => js "Score: " ++ toFixed2 host x
        | None => []
        end ;;;
      fill_list "prosList" (pros data) (js "No clear pros detected.") ;;;
      fill_list "consList" (cons data) (js "No clear cons detected.")
  end.

(** [err.message || String(err)]: reading the property of [undefined] or
    [null] throws, and a primitive has no message. *)
Definition error_text (err : thrown) : M jsstring :=
  match err with
  | Nullish v => throw (TypeError v "message")
  | Primitive s => ret s
  | ErrorObject _ [] => ret (toString err)
  | ErrorObject _ m => ret m
  end.

(** Lines 191-212, the [try] block. *)
Definition attempt : M unit :=
  hide "error" ;;;
  hide "result" ;;;
  show "loader" ;;;
  scraped <- queryActiveTabAndScrape ;;
  (match reviews scraped with
   | [] => throw (new_Error (js no_reviews_message))
   | _ => ret tt
   end) ;;;
  setText "productInfo" (or_default (Some (title scraped))
                                    (js "Product Page")) ;;;
  (let payload := {| reviews := reviews scraped;
                     title := or_default (Some (title scraped)) [];
                     url := or_default (Some (url scraped)) [] |} in
   backendData <- callBackend payload ;;
   renderResults backendData ;;;
   hide "loader" ;;;
   show "result").

(** Lines 213-217, the [catch] block. *)
Definition recover (err : thrown) : M unit :=
  hide "loader" ;;;
  t <- error_text err ;;
  setText "error" t ;;;
  show "error".

(** Lines 190-218. *)
Definition summarize : M unit := try_catch attempt recover.
End Run.

(** An element is shown when its class list lacks [hidden]. *)
Definition hidden (w : world) (id : String.string) : Prop :=
  ∃ el, elements w !! id = Some el ∧ "hidden"%string ∈ classList el.

Definition shown (w : world) (id : String.string) : Prop :=
  ∃ el, elements w !! id = Some el ∧ "hidden"%string ∉ classList el.

Definition content (w : world) (id : String.string) : option (list child) :=
  children <$> elements w !! id.

Definition classes (w : world) (id : String.string)
  : option (gset String.string) :=
  classList <$> elements w !! id.

(** A computation that leaves every class list as it is, whether it returns
    or throws. *)
Definition keeps_classes {A} (c : M A) : Prop :=
  ∀ w id, classes (snd (c w)) id = classes w id.

(** A host under which no class list of the popup changes while a run
    waits: no other run of [summarize] is under way. *)
Definition undisturbed {Number} (host : Host Number) : Prop :=
  ∀ c dom id,
    classList <$> meanwhile host c dom !! id = classList <$> dom !! id.

(** A host under which nothing else touches the popup while a run waits. *)
Definition alone {Number} (host : Host Number) : Prop :=
  ∀ c dom, meanwhile host c dom = dom.

(** The popup after the three steps before the scraping. *)
Definition started (w : world) : world :=
  snd (show "loader" (snd (hide "result" (snd (hide "error" w))))).

(** The elements of a popup after the [catch] block has reported [t]:
    the error panel holds [t] and is not hidden, the loader is hidden, and
    every other element is as it was. *)
Definition reported (t : jsstring) (w : world) (id : String.string)
  : option HTMLElement :=
  if decide (id = "error"%string)
  then (fun el => without_hidden (with_text t el)) <$> elements w !! id
  else if decide (id = "loader"%string)
       then with_hidden <$> elements w !! id
       else elements w !! id.

(** A computation that makes no request. *)
Definition keeps_requests {A} (c : M A) : Prop :=
  ∀ w, requests (snd (c w)) = requests w.

(** The items of a list of the popup. *)
Definition list_items (entries : list jsstring) (placeholder : jsstring)
  : list child :=
  match entries with
  | [] => [Li placeholder]
  | _ => map Li entries
  end.

(** A popup with its panels and lists. *)
Definition panel (hide_it : bool) : HTMLElement :=
  {| classList := if hide_it then {["hidden"%string]} else ∅;
     children := [] |}.

Definition demo_world : world :=
  {| elements :=
       list_to_map
         [("error", panel true); ("result", panel false);
          ("loader", panel true); ("productInfo", panel false);
          ("oneLine", panel false); ("sentimentBadge", panel false);
          ("scoreBadge", panel false); ("prosList", panel false);
          ("consList", panel false)]%string;
     requests := [] |}.

Definition demo_scraped : ExtractionResult :=
  {| reviews := [js "Great battery life and build quality overall"];
     title := js "Wireless Mouse";
     url := js "https://shop.example/item/1" |}.

Definition demo_data : Data N :=
  {| raw := None;
     pros := [js "Long battery life"; js "Sturdy build"];
     cons := [];
     overall_sentiment := Some (js "Positive");
     score := Some 80%N;
     one_line_summary := None |}.

Definition demo_message (v : nullish) (property : String.string)
  : jsstring :=
  js "Cannot access " ++ js property ++ js " of "
  ++ toString (Nullish v).

(** A host whose backend refuses, and under which nothing else runs. *)
Definition demo_host (found : list InjectionResult) : Host N :=
  {| tabs_query := Return [ {| tabId := 7%N |} ];
     executeScript := fun _ => Return found;
     fetch := fun _ =>
       Return {| ok := false; status := 500%N;
                 text := Return (js "Internal Server Error");
                 json := Raise (ErrorObject (js "SyntaxError")
                                            (js "Unexpected token")) |};
     toFixed2 := fun _ => js "0.00";
     type_error_message := demo_message;
     meanwhile := fun _ dom => dom |}.

(** A host whose backend answers, and under which nothing else runs. *)
Definition answering_host : Host N :=
  {| tabs_query := Return [ {| tabId := 7%N |} ];
     executeScript := fun _ => Return [ {| result := Some demo_scraped |} ];
     fetch := fun _ =>
       Return {| ok := true; status := 200%N;
                 text := Return [];
                 json := Return demo_data |};
     toFixed2 := fun _ => js "0.80";
     type_error_message := demo_message;
     meanwhile := fun _ dom => dom |}.

(** A host whose backend refuses a run, while a second run, from a second
    click, is answered before the first goes on. *)
Definition overlapped_host : Host N :=
  {| tabs_query := Return [ {| tabId := 7%N |} ];
     executeScript := fun _ => Return [ {| result := Some demo_scraped |} ];
     fetch := fun _ =>
       Return {| ok := false; status := 500%N;
                 text := Return (js "Internal Server Error");
                 json := Raise (ErrorObject (js "SyntaxError")
                                            (js "Unexpected token")) |};
     toFixed2 := fun _ => js "0.00";
     type_error_message := demo_message;
     meanwhile := fun c dom =>
       match c with
       | Fetch =>
           elements (snd (summarize answering_host
                            {| elements := dom; requests := [] |}))
       | _ => dom
       end |}.

(** A host whose first call rejects with [undefined]. *)
Definition rejecting_host : Host N :=
  {| tabs_query := Raise (Nullish undefined);
     executeScript := fun _ => Return [];
     fetch := fun _ => Raise (Nullish undefined);
     toFixed2 := fun _ => js "0.00";
     type_error_message := demo_message;
     meanwhile := fun _ dom => dom |}.

End Popup.

(** * The matcher and the scan *)

Section Matcher.
Variable ic : bool.

Lemma match_at_star k p s :
  match_at ic (Star k :: p) s
  = match s with
    | x :: s' =>
        if in_class k x then
          match match_at ic (Star k :: p) s' with
          | Some n => Some (S n)
          | None => match_at ic p s
          end
        else match_at ic p s
    | [] => match_at ic p s
    end.
Proof. destruct s; reflexivity. Qed.

(** A match lies within the string. *)
Lemma match_at_le p : ∀ s n, match_at ic p s = Some n -> n ≤ length s.
Proof.
  induction p as [|a p IH]; intros s n.
  - simpl. intros [= <-]. lia.
  - destruct a as [c|k|k].
    + destruct s as [|x s]; simpl; [discriminate|].
      destruct (char_eq ic c x); [|discriminate].
      destruct (match_at ic p s) as [m|] eqn:E; simpl; [|discriminate].
      intros [= <-]. apply IH in E. lia.
    + destruct s as [|x s]; simpl; [discriminate|].
      destruct (in_class k x); [|discriminate].
      destruct (match_at ic p s) as [m|] eqn:E; simpl; [|discriminate].
      intros [= <-]. apply IH in E. lia.
    + revert n. induction s as [|x s IHs]; intros n; rewrite match_at_star.
      * apply IH.
      * destruct (in_class k x); [|apply IH].
        destruct (match_at ic (Star k :: p) s) as [m|] eqn:E; [|apply IH].
        intros [= <-]. specialize (IHs _ eq_refl). simpl. lia.
Qed.

(** Where the rest of the pattern matches, the quantified class before it
    matches too. *)
Lemma match_at_star_rest k p s :
  is_Some (match_at ic p s) -> is_Some (match_at ic (Star k :: p) s).
Proof.
  intros H. rewrite match_at_star. destruct s as [|x s]; [exact H|].
  destruct (in_class k x); [|exact H].
  destruct (match_at ic (Star k :: p) s); [eauto|exact H].
Qed.

(** A match is not lost when the string goes on. *)
Lemma match_at_app_mono p : ∀ s t,
  is_Some (match_at ic p s) -> is_Some (match_at ic p (s ++ t)).
Proof.
  induction p as [|a p IH]; intros s t.
  - simpl. eauto.
  - destruct a as [c|k|k].
    + destruct s as [|x s]; simpl; [intros [? [=]]|].
      destruct (char_eq ic c x); [|intros [? [=]]].
      intros [n Hn]. destruct (match_at ic p s) as [m|] eqn:E; [|discriminate].
      destruct (IH s t) as [m' ->]; [rewrite E; eauto|]. simpl. eauto.
    + destruct s as [|x s]; simpl; [intros [? [=]]|].
      destruct (in_class k x); [|intros [? [=]]].
      intros [n Hn]. destruct (match_at ic p s) as [m|] eqn:E; [|discriminate].
      destruct (IH s t) as [m' ->]; [rewrite E; eauto|]. simpl. eauto.
    + induction s as [|x s IHs].
      * intros H. apply match_at_star_rest. rewrite match_at_star in H.
        exact (IH [] t H).
      * rewrite match_at_star. simpl app. rewrite (match_at_star k p (x :: _)).
        destruct (in_class k x); [|apply (IH (x :: s) t)].
        destruct (match_at ic (Star k :: p) s) as [m|] eqn:E.
        -- intros _. destruct IHs as [m' ->]; eauto.
        -- intros H.
           destruct (match_at ic (Star k :: p) (s ++ t)); [eauto|].
           apply (IH (x :: s) t H).
Qed.

(** A code unit that no term of the pattern accepts ends every match
    before it: the matcher gives the same answer as on the text before that
    code unit alone. *)
Lemma match_at_sep c p :
  Forall (fun a => accepts ic a c = false) p ->
  ∀ s t, match_at ic p (s ++ c :: t) = match_at ic p s.
Proof.
  induction p as [|a p IH]; intros Hp s t; [reflexivity|].
  apply Forall_cons in Hp as [Ha Hp]. specialize (IH Hp).
  destruct a as [c'|k|k]; simpl in Ha.
  - destruct s as [|x s]; simpl; [rewrite Ha; reflexivity|].
    rewrite IH. reflexivity.
  - destruct s as [|x s]; simpl; [rewrite Ha; reflexivity|].
    rewrite IH. reflexivity.
  - induction s as [|x s IHs].
    + simpl app. rewrite (match_at_star k p (c :: t)), (match_at_star k p []).
      rewrite Ha. apply (IH [] t).
    + simpl app. rewrite (match_at_star k p (x :: s ++ _)).
      rewrite (match_at_star k p (x :: s)).
      pose proof (IH (x :: s) t) as E. simpl app in E.
      rewrite IHs, E. reflexivity.
Qed.
End Matcher.

(** The classes do not tell a letter from its other case. *)
Lemma Canonicalize_idem x : Canonicalize (Canonicalize x) = Canonicalize x.
Proof.
  unfold Canonicalize.
  destruct ((97 <=? x)%N && (x <=? 122)%N) eqn:E; [|rewrite E; reflexivity].
  apply andb_true_iff in E as [E1 E2].
  apply N.leb_le in E1. apply N.leb_le in E2.
  destruct (N.leb_spec 97 (x - 32)); [lia|]. reflexivity.
Qed.

Lemma in_class_Canonicalize k x : in_class k (Canonicalize x) = in_class k x.
Proof.
  unfold Canonicalize.
  destruct ((97 <=? x)%N && (x <=? 122)%N) eqn:E; [|reflexivity].
  apply andb_true_iff in E as [E1 E2].
  apply N.leb_le in E1. apply N.leb_le in E2.
  assert (Hd : ∀ y, (65 ≤ y ≤ 122)%N -> in_class k y = match k with
                                                      | Dot => true
                                                      | _ => false
                                                      end).
  { intros y Hy. destruct k; unfold in_class, is_digit, is_line_terminator,
      is_ws;
      repeat match goal with
        | |- context [(?a <=? ?b)%N] => destruct (N.leb_spec a b); try lia
        | |- context [(?a =? ?b)%N] => destruct (N.eqb_spec a b); try lia
        end; reflexivity. }
  rewrite !Hd by lia. reflexivity.
Qed.

Lemma accepts_Canonicalize a x :
  accepts true a (Canonicalize x) = accepts true a x.
Proof.
  destruct a as [c|k|k]; simpl.
  - unfold char_eq. rewrite Canonicalize_idem. reflexivity.
  - apply in_class_Canonicalize.
  - apply in_class_Canonicalize.
Qed.

(** With the flag [i], the matcher reads the text through
    [Canonicalize]. *)
Lemma match_at_Canonicalize p : ∀ s,
  match_at true p (map Canonicalize s) = match_at true p s.
Proof.
  induction p as [|a p IH]; intros s; [reflexivity|].
  destruct a as [c|k|k].
  - destruct s as [|x s]; cbn [map match_at]; [reflexivity|].
    rewrite (accepts_Canonicalize (Char c) x : char_eq true c _ = _), IH.
    reflexivity.
  - destruct s as [|x s]; cbn [map match_at]; [reflexivity|].
    rewrite in_class_Canonicalize, IH. reflexivity.
  - induction s as [|x s IHs].
    + simpl map. rewrite !(match_at_star true k p []). apply (IH []).
    + simpl map. rewrite (match_at_star true k p (_ :: map _ _)).
      rewrite (match_at_star true k p (x :: s)).
      pose proof (IH (x :: s)) as E. simpl map in E.
      rewrite in_class_Canonicalize, IHs, E. reflexivity.
Qed.

Section Scan.
Variable re : RegExp.
Variable r : jsstring.

Lemma exec_at_le s n : exec_at re s = Some n -> n ≤ length s.
Proof. apply match_at_le. Qed.

(** The scan resumes behind the last match. *)
Lemma replace_from_drop : ∀ s k,
  k ≤ length s -> replace_from re r k s = replace re r (drop k s).
Proof.
  induction s as [|x s IH]; intros k Hk.
  - simpl in Hk. assert (k = 0) as -> by lia. reflexivity.
  - destruct k as [|k]; [reflexivity|]. simpl. apply IH. simpl in Hk. lia.
Qed.

Lemma replace_cons x s :
  replace re r (x :: s)
  = match exec_at re (x :: s) with
    | Some (S n) => r ++ replace re r (drop n s)
    | Some 0 => r ++ x :: replace re r s
    | None => x :: replace re r s
    end.
Proof.
  unfold replace at 1. simpl.
  destruct (exec_at re (x :: s)) as [[|n]|] eqn:E; try reflexivity.
  rewrite replace_from_drop; [reflexivity|].
  apply exec_at_le in E. simpl in E. lia.
Qed.

(** Where the expression occurs nowhere, the text is unchanged. *)
Lemma replace_no_occurrence s : occurs re s = false -> replace re r s = s.
Proof.
  induction s as [|x s IH]; simpl.
  - unfold replace. simpl. destruct (exec_at re []); [discriminate|].
    reflexivity.
  - rewrite replace_cons. destruct (exec_at re (x :: s)); [discriminate|].
    intros H. rewrite IH by exact H. reflexivity.
Qed.

(** A code unit that no term accepts separates the text: the scan treats
    the two sides on their own. *)
Lemma replace_from_sep c :
  Forall (fun a => accepts (ignoreCase re) a c = false) (source re) ->
  ∀ a b k, k ≤ length a ->
    replace_from re r k (a ++ c :: b)
    = replace_from re r k a ++ c :: replace re r b.
Proof.
  intros Hc a b.
  assert (Hex : ∀ s, exec_at re (s ++ c :: b) = exec_at re s).
  { intros s. apply match_at_sep, Hc. }
  induction a as [|x a IH]; intros k Hk.
  - simpl in Hk. assert (k = 0) as -> by lia.
    pose proof (Hex []) as E0. simpl app in *.
    unfold replace at 1. simpl. rewrite E0.
    destruct (exec_at re []) as [[|n]|] eqn:E; try reflexivity.
    apply exec_at_le in E. simpl in E. lia.
  - pose proof (Hex (x :: a)) as E0. destruct k as [|k]; simpl in *.
    + rewrite E0.
      destruct (exec_at re (x :: a)) as [[|n]|] eqn:E.
      * rewrite IH by lia. rewrite <- !app_assoc. reflexivity.
      * apply exec_at_le in E. simpl in E.
        rewrite IH by lia. rewrite <- !app_assoc. reflexivity.
      * rewrite IH by lia. reflexivity.
    + apply IH. lia.
Qed.

Lemma replace_sep c a b :
  Forall (fun a => accepts (ignoreCase re) a c = false) (source re) ->
  replace re r (a ++ c :: b) = replace re r a ++ c :: replace re r b.
Proof. intros Hc. apply replace_from_sep; [exact Hc|lia]. Qed.

(** The scan keeps a prefix in which no match starts. *)
Lemma replace_keep_prefix : ∀ u t,
  (∀ k, k < length u -> exec_at re (drop k u ++ t) = None) ->
  replace re r (u ++ t) = u ++ replace re r t.
Proof.
  induction u as [|x u IH]; intros t H; [reflexivity|].
  simpl app. rewrite replace_cons.
  pose proof (H 0 ltac:(simpl; lia)) as E. simpl in E. rewrite E.
  f_equal. apply IH.
  intros k Hk. apply (H (S k)). simpl. lia.
Qed.
End Scan.

(** Deleting keeps what holds of every code unit. *)
Lemma Forall_replace_from re (P : N -> Prop) : ∀ s k,
  Forall P s -> Forall P (replace_from re [] k s).
Proof.
  induction s as [|x s IH]; intros k Hs.
  - destruct k; simpl; [|constructor].
    destruct (exec_at re []); constructor.
  - apply Forall_cons in Hs as [Hx Hs]. destruct k as [|k]; simpl.
    + destruct (exec_at re (x :: s)) as [[|n]|]; simpl;
        try constructor; auto.
    + auto.
Qed.

Lemma Forall_replace re (P : N -> Prop) s :
  Forall P s -> Forall P (replace re [] s).
Proof. apply Forall_replace_from. Qed.

(** * Patterns without quantifier *)

Section Fits.
Variable ic : bool.

Lemma fits_length p : ∀ u, fits ic p u = true -> length u = length p.
Proof.
  induction p as [|a p IH]; intros [|x u]; simpl; try discriminate;
    [reflexivity| |].
  - destruct a; discriminate.
  - destruct a as [c|k|k]; [| |discriminate];
      intros [_ H]%andb_true_iff; f_equal; apply IH, H.
Qed.

(** Behind a match of a quantifier-free prefix, the matcher goes on with
    the rest of the pattern. *)
Lemma match_at_fits p q : ∀ u t,
  fits ic p u = true ->
  match_at ic (p ++ q) (u ++ t)
  = (fun n => length u + n) <$> match_at ic q t.
Proof.
  induction p as [|a p IH]; intros [|x u] t; simpl; try discriminate.
  - intros _. destruct (match_at ic q t); reflexivity.
  - destruct a; discriminate.
  - destruct a as [c|k|k]; [| |discriminate];
      intros [-> H]%andb_true_iff; rewrite (IH _ _ H);
      destruct (match_at ic q t); reflexivity.
Qed.

Lemma match_at_star_all k : ∀ s,
  Forall (fun x => in_class k x = true) s ->
  match_at ic [Star k] s = Some (length s).
Proof.
  induction s as [|x s IH]; intros H; rewrite match_at_star; [reflexivity|].
  apply Forall_cons in H as [-> H]. rewrite (IH H). reflexivity.
Qed.
End Fits.

Lemma fits_Canonicalize p : ∀ u,
  fits true p (map Canonicalize u) = fits true p u.
Proof.
  induction p as [|a p IH]; intros [|x u]; cbn [map fits]; try reflexivity.
  destruct a as [c|k|k]; [| |reflexivity]; rewrite IH; f_equal.
  - apply (accepts_Canonicalize (Char c)).
  - apply in_class_Canonicalize.
Qed.

Lemma exec_at_Canonicalize re s :
  ignoreCase re = true ->
  exec_at re (map Canonicalize s) = exec_at re s.
Proof. unfold exec_at. intros ->. apply match_at_Canonicalize. Qed.

(** * Lines *)

Lemma split_nonempty c s : split c s ≠ [].
Proof.
  destruct s as [|x s]; simpl; [discriminate|].
  destruct (x =? c)%N; [discriminate|]. destruct (split c s); discriminate.
Qed.

Lemma split_app_sep c : ∀ a b,
  split c (a ++ c :: b) = split c a ++ split c b.
Proof.
  induction a as [|x a IH]; intros b; simpl.
  - rewrite N.eqb_refl. reflexivity.
  - rewrite IH. destruct (x =? c)%N; [reflexivity|].
    destruct (split c a) as [|l ls] eqn:E; [|reflexivity].
    exfalso. exact (split_nonempty _ _ E).
Qed.

Lemma split_no_sep c s : Forall (fun x => x ≠ c) s -> split c s = [s].
Proof.
  induction s as [|x s IH]; intros H; simpl; [reflexivity|].
  apply Forall_cons in H as [Hx H]. rewrite (IH H).
  destruct (N.eqb_spec x c); [contradiction|reflexivity].
Qed.

(** No term of a noise pattern accepts a line feed. *)
Lemma noisePatterns_reject_LF :
  Forall (fun re =>
            Forall (fun a => accepts (ignoreCase re) a LF = false)
                   (source re))
         noisePatterns.
Proof. repeat constructor. Qed.

(** Each pattern, and so the whole of step 1, works line by line. *)
Lemma fold_replace_sep c (res : list RegExp) :
  Forall (fun re =>
            Forall (fun a => accepts (ignoreCase re) a c = false)
                   (source re)) res ->
  ∀ a b,
    fold_left (fun t re => replace re [] t) res (a ++ c :: b)
    = fold_left (fun t re => replace re [] t) res a
      ++ c :: fold_left (fun t re => replace re [] t) res b.
Proof.
  induction res as [|re res IH]; intros H a b; [reflexivity|].
  apply Forall_cons in H as [Hre H]. simpl.
  rewrite replace_sep by exact Hre. apply IH, H.
Qed.

Lemma strip_noise_lines a b :
  strip_noise (a ++ LF :: b) = strip_noise a ++ LF :: strip_noise b.
Proof. apply fold_replace_sep, noisePatterns_reject_LF. Qed.

Lemma cleanLines_app a b :
  cleanLines (a ++ LF :: b) = cleanLines a ++ cleanLines b.
Proof.
  unfold cleanLines.
  rewrite strip_noise_lines, split_app_sep, List.filter_app. reflexivity.
Qed.

Lemma cleanLines_join ls :
  cleanLines (join [LF] ls) = flat_map cleanLines ls.
Proof.
  induction ls as [|l ls IH]; [reflexivity|].
  destruct ls as [|l' ls].
  - simpl. rewrite app_nil_r. reflexivity.
  - change (join [LF] (l :: l' :: ls)) with (l ++ LF :: join [LF] (l' :: ls)).
    rewrite cleanLines_app, IH. reflexivity.
Qed.

(** [cleanReviewText] is the re-joining of the kept lines, on the empty text
    too. *)
Lemma cleanReviewText_unfold text :
  cleanReviewText text = rejoin (cleanLines text).
Proof. destruct text; reflexivity. Qed.

(** * Region and date stamps *)

Lemma never_starts_spec re u t :
  never_starts re u t = true ->
  ∀ k, k < length u -> exec_at re (drop k u ++ t) = None.
Proof.
  unfold never_starts. rewrite forallb_forall. intros H k Hk.
  specialize (H k). rewrite <- list_elem_of_In, elem_of_seq in H.
  destruct (exec_at re (drop k u ++ t)); [|reflexivity].
  discriminate H. lia.
Qed.

Lemma same_letters_length u v : same_letters u v -> length u = length v.
Proof.
  intros H. apply (f_equal length) in H. rewrite !length_map in H. exact H.
Qed.

(** A pattern with the flag [i] leaves alone a text in which, read in upper
    case, it starts nowhere. *)
Lemma replace_keep_letters re r st lit t :
  ignoreCase re = true ->
  same_letters st lit ->
  never_starts re (map Canonicalize lit) (map Canonicalize t) = true ->
  replace re r (st ++ t) = st ++ replace re r t.
Proof.
  intros Hi Hst Hn. apply replace_keep_prefix. intros k Hk.
  rewrite <- exec_at_Canonicalize by exact Hi.
  rewrite map_app, <- skipn_map, Hst.
  apply never_starts_spec; [exact Hn|].
  rewrite length_map, <- (same_letters_length _ _ Hst). exact Hk.
Qed.

(** A match that covers the whole text leaves nothing. *)
Lemma replace_whole re s :
  exec_at re [] = None ->
  exec_at re s = Some (length s) ->
  replace re [] s = [].
Proof.
  intros H0 Hs. destruct s as [|x s].
  - unfold replace. simpl. rewrite H0. reflexivity.
  - rewrite replace_cons, Hs. simpl. rewrite drop_all.
    unfold replace. simpl. rewrite H0. reflexivity.
Qed.

(** A stamp matches through the end of its line. *)
Lemma exec_at_stamp re l lit st rest :
  source re = l ++ [Star Dot] ->
  ignoreCase re = true ->
  fits true l (map Canonicalize lit) = true ->
  same_letters st lit ->
  Forall (fun x => is_line_terminator x = false) rest ->
  exec_at re (st ++ rest) = Some (length (st ++ rest)).
Proof.
  intros Hsrc Hi Hfit Hst Hrest. unfold exec_at. rewrite Hsrc, Hi.
  rewrite match_at_fits.
  - rewrite match_at_star_all.
    + simpl. rewrite length_app. reflexivity.
    + eapply Forall_impl; [exact Hrest|]. simpl. intros x ->. reflexivity.
  - rewrite <- fits_Canonicalize, Hst. exact Hfit.
Qed.

Lemma strip_noise_India st rest :
  same_letters st (js "Reviewed in India on ") ->
  Forall (fun x => is_line_terminator x = false) rest ->
  strip_noise (st ++ rest) = [].
Proof.
  intros Hst Hrest. unfold strip_noise, noisePatterns. cbn [fold_left].
  rewrite (replace_keep_letters star_rating [] st _ rest eq_refl Hst)
    by (vm_compute; reflexivity).
  rewrite (replace_whole reviewed_in_India); [reflexivity|reflexivity|].
  eapply exec_at_stamp; [reflexivity|reflexivity| |exact Hst|].
  - vm_compute. reflexivity.
  - apply Forall_replace, Hrest.
Qed.

Lemma strip_noise_UAE st rest :
  same_letters st (js "Reviewed in the United Arab Emirates on ") ->
  Forall (fun x => is_line_terminator x = false) rest ->
  strip_noise (st ++ rest) = [].
Proof.
  intros Hst Hrest. unfold strip_noise, noisePatterns. cbn [fold_left].
  rewrite (replace_keep_letters star_rating [] st _ rest eq_refl Hst)
    by (vm_compute; reflexivity).
  rewrite (replace_keep_letters reviewed_in_India [] st _ _ eq_refl Hst)
    by (vm_compute; reflexivity).
  rewrite (replace_whole reviewed_in_UAE); [reflexivity|reflexivity|].
  eapply exec_at_stamp; [reflexivity|reflexivity| |exact Hst|].
  - vm_compute. reflexivity.
  - do 2 apply Forall_replace. exact Hrest.
Qed.

(** C10. A line that begins with a stamp of one of the two regions, in any
    letter case, and goes on with other text up to its end is deleted whole
    by the noise patterns: [cleanReviewText] returns what it returns for the
    text without that line. *)
Theorem C10_stamp_deletes_rest_of_line
  (before after : list jsstring) (st rest : jsstring) :
  same_letters st (js "Reviewed in India on ")
  ∨ same_letters st (js "Reviewed in the United Arab Emirates on ") ->
  Forall (fun x => is_line_terminator x = false) rest ->
  strip_noise (st ++ rest) = []
  ∧ cleanReviewText (join [LF] (before ++ (st ++ rest) :: after))
    = cleanReviewText (join [LF] (before ++ after)).
Proof.
  intros Hst Hrest.
  assert (Hs : strip_noise (st ++ rest) = []).
  { destruct Hst; [apply strip_noise_India|apply strip_noise_UAE]; auto. }
  split; [exact Hs|].
  rewrite !cleanReviewText_unfold, !cleanLines_join. f_equal.
  rewrite !flat_map_app. f_equal. simpl.
  unfold cleanLines at 1. rewrite Hs. reflexivity.
Qed.

Lemma C10_stamp_deletes_rest_of_line_witness :
  cleanReviewText
    (join [LF] [js "Great phone, the battery lasts two days.";
                js "Reviewed in India on " ++ js "5 May 2021 Works well"])
  = cleanReviewText
      (join [LF] [js "Great phone, the battery lasts two days."]).
Proof.
  refine (proj2 (C10_stamp_deletes_rest_of_line
                   [js "Great phone, the battery lasts two days."] []
                   (js "Reviewed in India on ") (js "5 May 2021 Works well")
                   _ _)).
  - left. reflexivity.
  - vm_compute. repeat constructor.
Defined.

(** * Whitespace: [trim] and [/\s\s+/g] *)

Lemma ws_prefix_take s : all_ws (take (ws_prefix s) s) = true.
Proof.
  induction s as [|x s IH]; simpl; [reflexivity|].
  destruct (is_ws x) eqn:E; simpl; [|reflexivity]. rewrite E. exact IH.
Qed.

Lemma ws_prefix_drop s : starts_ws (drop (ws_prefix s) s) = false.
Proof.
  induction s as [|x s IH]; simpl; [reflexivity|].
  destruct (is_ws x) eqn:E; simpl; [exact IH|exact E].
Qed.

Lemma ws_prefix_le s : ws_prefix s ≤ length s.
Proof.
  induction s as [|x s IH]; simpl; [lia|]. destruct (is_ws x); simpl; lia.
Qed.

Lemma match_at_star_Space ic s :
  match_at ic [Star Space] s = Some (ws_prefix s).
Proof.
  induction s as [|x s IH]; rewrite match_at_star; [reflexivity|].
  cbn [in_class ws_prefix]. destruct (is_ws x); [|reflexivity].
  rewrite IH. reflexivity.
Qed.

(** [/\s\s+/] matches at a position exactly the whitespace that starts
    there, when that is two code units or more. *)
Lemma exec_at_ws_run s :
  exec_at ws_run s
  = match s with
    | x :: y :: s' =>
        if is_ws x && is_ws y then Some (2 + ws_prefix s') else None
    | _ => None
    end.
Proof.
  unfold exec_at.
  change (source ws_run) with ([Class Space; Class Space] ++ [Star Space]).
  change (ignoreCase ws_run) with false.
  destruct s as [|x [|y s]].
  - reflexivity.
  - simpl. destruct (is_ws x); reflexivity.
  - destruct (is_ws x) eqn:Ex; [destruct (is_ws y) eqn:Ey|].
    + change (x :: y :: s) with ([x; y] ++ s).
      rewrite match_at_fits by (simpl; rewrite Ex, Ey; reflexivity).
      rewrite match_at_star_Space. reflexivity.
    + simpl. rewrite Ex, Ey. reflexivity.
    + simpl. rewrite Ex. reflexivity.
Qed.

Lemma exec_at_ws_run_pair s : ws_pair s = false -> exec_at ws_run s = None.
Proof.
  rewrite exec_at_ws_run. destruct s as [|x [|y s]]; simpl; try reflexivity.
  destruct (is_ws x && is_ws y); [discriminate|reflexivity].
Qed.

Lemma occurs_ws_run s : ws_pair s = false -> occurs ws_run s = false.
Proof.
  induction s as [|x s IH]; intros H; simpl.
  - reflexivity.
  - rewrite (exec_at_ws_run_pair _ H). apply IH.
    simpl in H. apply orb_false_iff in H. tauto.
Qed.

(** What [replace(/\s\s+/g, ' ')] does. *)
Lemma replace_ws_run_Collapsed s : Collapsed s (replace ws_run [SP] s).
Proof.
  remember (length s) as n eqn:En. revert s En.
  induction (lt_wf n) as [n _ IH]. intros s ->.
  destruct s as [|x s]; [unfold replace; simpl; constructor|].
  rewrite replace_cons, exec_at_ws_run.
  destruct (is_ws x) eqn:Ex.
  - destruct s as [|y s].
    + simpl. apply Collapsed_lone; [exact Ex|reflexivity|]. constructor.
    + destruct (is_ws y) eqn:Ey; simpl.
      * rewrite <- (take_drop (ws_prefix s) s) at 1.
        apply Collapsed_run; auto using ws_prefix_take, ws_prefix_drop.
        apply (IH (length (drop (ws_prefix s) s))); [|reflexivity].
        rewrite length_drop. simpl. lia.
      * apply Collapsed_lone; [exact Ex|exact Ey|].
        apply (IH (length (y :: s))); [simpl; lia|reflexivity].
  - assert (E : match s with
                | [] => None
                | y :: s' =>
                    if false && is_ws y then Some (2 + ws_prefix s') else None
                end = @None nat) by (destruct s; reflexivity).
    rewrite E. apply Collapsed_text; [exact Ex|].
    apply (IH (length s)); [simpl; lia|reflexivity].
Qed.

Lemma all_ws_app u v : all_ws (u ++ v) = all_ws u && all_ws v.
Proof. apply forallb_app. Qed.

Lemma ws_run_split : ∀ w w' s s',
  all_ws w = true -> all_ws w' = true ->
  starts_ws s = false -> starts_ws s' = false ->
  w ++ s = w' ++ s' -> w = w' ∧ s = s'.
Proof.
  induction w as [|x w IH]; intros [|x' w'] s s' Hw Hw' Hs Hs' E;
    simpl in *.
  - auto.
  - subst s. simpl in Hs. apply andb_true_iff in Hw' as [Hx _]. congruence.
  - subst s'. simpl in Hs'. apply andb_true_iff in Hw as [Hx _]. congruence.
  - injection E as -> E.
    apply andb_true_iff in Hw as [_ Hw]. apply andb_true_iff in Hw' as [_ Hw'].
    destruct (IH _ _ _ Hw Hw' Hs Hs' E) as [-> ->]. auto.
Qed.

(** [Collapsed] determines its result. *)
Lemma Collapsed_fun s r : Collapsed s r -> ∀ r', Collapsed s r' -> r' = r.
Proof.
  induction 1 as [|x s r Hx _ IH|x s r Hx Hs _ IH|x y w s r Hx Hy Hw Hs _ IH];
    intros r' H'; inversion H'; subst; try congruence.
  - f_equal. auto.
  - f_equal. auto.
  - simpl in Hs. congruence.
  - match goal with H : starts_ws (_ :: _) = false |- _ => simpl in H end.
    congruence.
  - match goal with H : _ ++ _ = _ ++ _ |- _ =>
      apply ws_run_split in H as [-> ->]; auto
    end.
    f_equal. auto.
Qed.

(** C8. For every input, [cleanReviewText] returns the trimmed collapse of
    the lines of the noise-stripped text whose trimmed form is longer than
    15 code units and contains a space, in their order and joined by one
    space, where the collapse replaces each maximal run of two or more
    whitespace code units by one space and leaves a lone whitespace code
    unit, a tab for instance, as it is; the result is empty when no line is
    kept.  The three-line example of the specification yields its last
    line. *)
Theorem C8_kept_lines_joined_and_collapsed :
  (∀ text,
     ∃ t, Collapsed
            (join [SP] (List.filter keep_line (split LF (strip_noise text))))
            t
          ∧ (∀ t', Collapsed
                     (join [SP]
                        (List.filter keep_line (split LF (strip_noise text))))
                     t' -> t' = t)
          ∧ cleanReviewText text = trim t)
  ∧ (∀ line, keep_line line = true
             ↔ 15 < length (trim line) ∧ SP ∈ trim line)
  ∧ cleanReviewText
      (js "4.5 out of 5 stars" ++ [LF] ++ js "Verified Purchase" ++ [LF]
       ++ js "This product exceeded my expectations in every way possible.")
    = js "This product exceeded my expectations in every way possible.".
Proof.
  split; [|split].
  - intros text. eexists. split; [apply replace_ws_run_Collapsed|]. split.
    + intros t'. apply Collapsed_fun, replace_ws_run_Collapsed.
    + apply cleanReviewText_unfold.
  - intros line. unfold keep_line, includes.
    rewrite andb_true_iff, Nat.ltb_lt, existsb_exists.
    split; intros [Hl Hs]; (split; [exact Hl|]).
    + destruct Hs as (x & Hx & E). apply N.eqb_eq in E. subst x.
      apply list_elem_of_In, Hx.
    + exists SP. split; [apply list_elem_of_In, Hs|apply N.eqb_refl].
  - vm_compute. reflexivity.
Qed.

(** C8, as the specification words it: on a line with a lone tab the cleaner
    differs from the one that collapses every run of whitespace. *)
Lemma C8_lone_tab_not_collapsed :
  cleanReviewText (js "Good" ++ [TAB] ++ js "product and it works well")
  ≠ clean_every_run_collapsed
      (js "Good" ++ [TAB] ++ js "product and it works well").
Proof. vm_compute. discriminate. Qed.

(** * Cleaning a cleaned text *)

Lemma Collapsed_starts_ws s r : Collapsed s r -> starts_ws r = starts_ws s.
Proof.
  induction 1 as [| | |x y w s r Hx]; simpl; try congruence.
  rewrite Hx. reflexivity.
Qed.

Lemma Collapsed_ws_pair s r : Collapsed s r -> ws_pair r = false.
Proof.
  induction 1 as [|x s r Hx H IH|x s r Hx Hs H IH|x y w s r Hx Hy Hw Hs H IH];
    simpl.
  - reflexivity.
  - rewrite Hx, IH. reflexivity.
  - rewrite (Collapsed_starts_ws _ _ H), Hs, IH, andb_false_r. reflexivity.
  - rewrite (Collapsed_starts_ws _ _ H), Hs, IH. reflexivity.
Qed.

Lemma Collapsed_all_ws s r : Collapsed s r -> all_ws r = all_ws s.
Proof.
  induction 1 as [|x s r Hx H IH|x s r Hx Hs H IH|x y w s r Hx Hy Hw Hs H IH];
    simpl.
  - reflexivity.
  - rewrite Hx. reflexivity.
  - rewrite Hx, IH. reflexivity.
  - rewrite Hx, Hy. fold (all_ws r). fold (all_ws (w ++ s)).
    rewrite all_ws_app, Hw, IH. reflexivity.
Qed.

Lemma Collapsed_Forall (P : N -> Prop) s r :
  P SP -> Collapsed s r -> Forall P s -> Forall P r.
Proof.
  intros HP. induction 1 as [|x s r Hx H IH|x s r Hx Hs H IH
                            |x y w s r Hx Hy Hw Hs H IH]; intros HF.
  - constructor.
  - apply Forall_cons in HF as [? ?]. constructor; auto.
  - apply Forall_cons in HF as [? ?]. constructor; auto.
  - apply Forall_cons in HF as [_ HF]. apply Forall_cons in HF as [_ HF].
    apply Forall_app in HF as [_ HF]. constructor; auto.
Qed.

Lemma space_before_text_ws w s :
  all_ws w = true ->
  space_before_text (w ++ s) = true ->
  negb (all_ws s) || space_before_text s = true.
Proof.
  induction w as [|x w IH]; simpl; intros Hw H.
  - rewrite H. apply orb_true_r.
  - apply andb_true_iff in Hw as [_ Hw]. fold (all_ws (w ++ s)) in H.
    rewrite all_ws_app, Hw in H. simpl in H.
    apply orb_true_iff in H as [H|H]; [|exact (IH Hw H)].
    apply andb_true_iff in H as [_ ->]. reflexivity.
Qed.

Lemma Collapsed_space_before_text s r :
  Collapsed s r -> space_before_text s = true -> space_before_text r = true.
Proof.
  induction 1 as [|x s r Hx H IH|x s r Hx Hs H IH|x y w s r Hx Hy Hw Hs H IH];
    simpl; intros Hsp.
  - discriminate.
  - rewrite (Collapsed_all_ws _ _ H).
    apply orb_true_iff in Hsp as [->|Hsp]; [reflexivity|].
    rewrite (IH Hsp). apply orb_true_r.
  - rewrite (Collapsed_all_ws _ _ H).
    apply orb_true_iff in Hsp as [->|Hsp]; [reflexivity|].
    rewrite (IH Hsp). apply orb_true_r.
  - rewrite (Collapsed_all_ws _ _ H).
    change (space_before_text ([x; y] ++ w ++ s) = true) in Hsp.
    rewrite app_assoc in Hsp. apply space_before_text_ws in Hsp.
    + apply orb_true_iff in Hsp as [->|Hsp]; [reflexivity|].
      rewrite (IH Hsp). apply orb_true_r.
    + rewrite all_ws_app, Hw. simpl. rewrite Hx, Hy. reflexivity.
Qed.

Lemma space_inside_ws w s :
  all_ws w = true -> space_inside (w ++ s) = space_inside s.
Proof.
  induction w as [|x w IH]; simpl; intros Hw; [reflexivity|].
  apply andb_true_iff in Hw as [-> Hw]. exact (IH Hw).
Qed.

Lemma Collapsed_space_inside s r :
  Collapsed s r -> space_inside s = true -> space_inside r = true.
Proof.
  induction 1 as [|x s r Hx H IH|x s r Hx Hs H IH|x y w s r Hx Hy Hw Hs H IH];
    simpl.
  - discriminate.
  - rewrite Hx. eapply Collapsed_space_before_text, H.
  - rewrite Hx. exact IH.
  - rewrite Hx, Hy, space_inside_ws by exact Hw. exact IH.
Qed.

(** ** [trim] *)

Lemma trimEnd_all_ws u : all_ws u = true -> trimEnd u = [].
Proof.
  induction u as [|x u IH]; simpl; [reflexivity|].
  intros [-> Hu]%andb_true_iff. rewrite (IH Hu). reflexivity.
Qed.

Lemma trimEnd_nil u : trimEnd u = [] -> all_ws u = true.
Proof.
  induction u as [|x u IH]; simpl; [reflexivity|].
  destruct (trimEnd u) as [|y t]; [|discriminate].
  destruct (is_ws x); [|discriminate]. intros _. apply IH. reflexivity.
Qed.

Lemma trimEnd_cons x u :
  all_ws u = false -> trimEnd (x :: u) = x :: trimEnd u.
Proof.
  intros H. simpl. destruct (trimEnd u) eqn:E; [|reflexivity].
  apply trimEnd_nil in E. congruence.
Qed.

Lemma space_before_text_all_ws u :
  all_ws u = true -> space_before_text u = false.
Proof.
  induction u as [|x u IH]; simpl; [reflexivity|].
  intros [_ Hu]%andb_true_iff. fold (all_ws u).
  rewrite Hu, (IH Hu), andb_false_r. reflexivity.
Qed.

Lemma is_ws_SP_eq x : (x =? SP)%N = true -> is_ws x = true.
Proof. intros ->%N.eqb_eq. reflexivity. Qed.

Lemma includes_cons c x s :
  includes c (x :: s) = (x =? c)%N || includes c s.
Proof. unfold includes. cbn [existsb]. rewrite N.eqb_sym. reflexivity. Qed.

Lemma includes_trimEnd u : includes SP (trimEnd u) = space_before_text u.
Proof.
  induction u as [|x u IH]; [reflexivity|].
  cbn [space_before_text]. fold (all_ws u).
  destruct (all_ws u) eqn:Hu.
  - cbn [trimEnd]. rewrite (trimEnd_all_ws _ Hu).
    rewrite (space_before_text_all_ws _ Hu), andb_false_r.
    destruct (is_ws x) eqn:Hx; [reflexivity|]. rewrite includes_cons.
    destruct (x =? SP)%N eqn:E; [|reflexivity].
    apply is_ws_SP_eq in E. congruence.
  - rewrite (trimEnd_cons _ _ Hu), includes_cons, IH, andb_true_r.
    reflexivity.
Qed.

Lemma includes_trim s : includes SP (trim s) = space_inside s.
Proof.
  unfold trim. rewrite includes_trimEnd.
  induction s as [|x s IH]; [reflexivity|].
  cbn [trimStart space_inside].
  destruct (is_ws x) eqn:Hx; [exact IH|]. cbn [space_before_text].
  destruct (x =? SP)%N eqn:E; [|reflexivity].
  apply is_ws_SP_eq in E. congruence.
Qed.

Lemma trimStart_starts_ws s : starts_ws (trimStart s) = false.
Proof.
  induction s as [|x s IH]; simpl; [reflexivity|].
  destruct (is_ws x) eqn:E; [exact IH|exact E].
Qed.

Lemma trimStart_id s : starts_ws s = false -> trimStart s = s.
Proof. destruct s as [|x s]; simpl; [reflexivity|]. intros ->. reflexivity. Qed.

Lemma trimEnd_starts_ws u : starts_ws u = false -> starts_ws (trimEnd u) = false.
Proof.
  destruct u as [|x u]; simpl; [reflexivity|]. intros Hx.
  destruct (trimEnd u); [rewrite Hx|]; simpl; auto.
Qed.

Lemma trimEnd_head u :
  trimEnd u ≠ [] -> starts_ws (trimEnd u) = starts_ws u.
Proof.
  destruct u as [|x u]; simpl; [reflexivity|].
  destruct (trimEnd u); [|reflexivity].
  destruct (is_ws x) eqn:E; [congruence|]. simpl. intros _. exact E.
Qed.

Lemma trimEnd_idem u : trimEnd (trimEnd u) = trimEnd u.
Proof.
  induction u as [|x u IH]; simpl; [reflexivity|].
  destruct (trimEnd u) as [|y t] eqn:E.
  - destruct (is_ws x) eqn:Hx; simpl; [reflexivity|]. rewrite Hx. reflexivity.
  - change (trimEnd (x :: y :: t) = x :: y :: t).
    rewrite trimEnd_cons; [rewrite IH; reflexivity|].
    destruct (all_ws (y :: t)) eqn:Hw; [|reflexivity].
    apply trimEnd_all_ws in Hw. congruence.
Qed.

Lemma trim_idem s : trim (trim s) = trim s.
Proof.
  unfold trim.
  rewrite (trimStart_id (trimEnd (trimStart s))).
  - apply trimEnd_idem.
  - apply trimEnd_starts_ws, trimStart_starts_ws.
Qed.

Lemma Forall_trim (P : N -> Prop) s : Forall P s -> Forall P (trim s).
Proof.
  intros H. unfold trim.
  assert (Hs : Forall P (trimStart s)).
  { induction H as [|x s Hx H IH]; simpl; [constructor|].
    destruct (is_ws x); [exact IH|constructor; assumption]. }
  clear H. induction Hs as [|x u Hx H IH]; simpl; [constructor|].
  destruct (trimEnd u); [destruct (is_ws x)|].
  - constructor.
  - constructor; [assumption|constructor].
  - constructor; assumption.
Qed.

Lemma ws_pair_trim s : ws_pair s = false -> ws_pair (trim s) = false.
Proof.
  intros H. unfold trim.
  assert (Hs : ws_pair (trimStart s) = false).
  { induction s as [|x s IH]; simpl in *; [reflexivity|].
    apply orb_false_iff in H as [H1 H2].
    destruct (is_ws x) eqn:Ex; [exact (IH H2)|]. simpl.
    rewrite H2, Ex. reflexivity. }
  clear H. induction (trimStart s) as [|x u IH]; [reflexivity|].
  simpl in Hs. apply orb_false_iff in Hs as [H1 H2].
  simpl. destruct (trimEnd u) as [|y t] eqn:E.
  - destruct (is_ws x); simpl; [reflexivity|]. rewrite andb_false_r.
    reflexivity.
  - change (ws_pair (x :: y :: t)) with
      ((is_ws x && starts_ws (y :: t)) || ws_pair (y :: t)).
    rewrite (IH H2), <- E, trimEnd_head, H1 by congruence. reflexivity.
Qed.

(** ** Lines and their joining *)

Lemma Forall_split c s : Forall (Forall (fun x => x ≠ c)) (split c s).
Proof.
  induction s as [|x s IH]; simpl; [repeat constructor|].
  destruct (N.eqb_spec x c); [constructor; [constructor|exact IH]|].
  destruct (split c s) as [|l ls]; [repeat constructor; assumption|].
  apply Forall_cons in IH as [Hl Hls]. repeat constructor; assumption.
Qed.

Lemma Forall_join (P : N -> Prop) sep ls :
  Forall P sep -> Forall (Forall P) ls -> Forall P (join sep ls).
Proof.
  intros Hsep. induction 1 as [|l ls Hl Hls IH]; simpl; [constructor|].
  destruct ls; [exact Hl|]. rewrite !Forall_app. auto.
Qed.

Lemma space_before_text_app s t :
  space_before_text s = true -> space_before_text (s ++ t) = true.
Proof.
  induction s as [|x s IH]; simpl; [discriminate|].
  fold (all_ws s). fold (all_ws (s ++ t)). rewrite all_ws_app.
  intros [H|H]%orb_true_iff.
  - apply andb_true_iff in H as [-> H]. apply negb_true_iff in H.
    rewrite H. reflexivity.
  - rewrite (IH H). apply orb_true_r.
Qed.

Lemma space_inside_app s t :
  space_inside s = true -> space_inside (s ++ t) = true.
Proof.
  induction s as [|x s IH]; simpl; [discriminate|].
  destruct (is_ws x); [exact IH|apply space_before_text_app].
Qed.

Lemma space_inside_join l ls :
  space_inside l = true -> space_inside (join [SP] (l :: ls)) = true.
Proof.
  intros H. destruct ls; simpl; [exact H|]. apply space_inside_app, H.
Qed.

Lemma fold_replace_no_occurrence (res : list RegExp) s :
  Forall (fun re => occurs re s = false) res ->
  fold_left (fun t re => replace re [] t) res s = s.
Proof.
  induction 1 as [|re res Hre _ IH]; simpl; [reflexivity|].
  rewrite replace_no_occurrence by exact Hre. exact IH.
Qed.

Lemma split_lines_keep s :
  Forall (Forall (fun x => x ≠ LF)) (List.filter keep_line (split LF s))
  ∧ Forall (fun l => keep_line l = true) (List.filter keep_line (split LF s)).
Proof.
  split.
  - apply Forall_forall. intros l Hl.
    apply list_elem_of_In, filter_In in Hl as [Hl _].
    apply list_elem_of_In in Hl.
    exact (proj1 (Forall_forall _ _) (Forall_split LF s) l Hl).
  - apply Forall_forall. intros l Hl.
    apply list_elem_of_In, filter_In in Hl as [_ Hl]. exact Hl.
Qed.

(** The re-joined text is returned as it is when it has no noise left and is
    long enough to pass for a line of its own. *)
Lemma cleanReviewText_rejoin ls :
  Forall (Forall (fun x => x ≠ LF)) ls ->
  Forall (fun l => keep_line l = true) ls ->
  Forall (fun re => occurs re (rejoin ls) = false) noisePatterns ->
  rejoin ls = [] ∨ 15 < length (rejoin ls) ->
  cleanReviewText (rejoin ls) = rejoin ls.
Proof.
  intros Hlf Hkeep Hnoise Hlen.
  destruct Hlen as [->|Hlen]; [reflexivity|].
  pose proof (replace_ws_run_Collapsed (join [SP] ls)) as Hc.
  set (t := replace ws_run [SP] (join [SP] ls)) in *.
  assert (Hr : rejoin ls = trim t) by reflexivity.
  assert (Htrim : trim (rejoin ls) = rejoin ls).
  { rewrite Hr. apply trim_idem. }
  assert (Hpair : ws_pair (rejoin ls) = false).
  { rewrite Hr. apply ws_pair_trim. eapply Collapsed_ws_pair, Hc. }
  assert (Hnolf : Forall (fun x => x ≠ LF) (rejoin ls)).
  { rewrite Hr. apply Forall_trim.
    eapply Collapsed_Forall; [discriminate|exact Hc|].
    apply Forall_join; [repeat constructor; discriminate|exact Hlf]. }
  assert (Hsp : includes SP (rejoin ls) = true).
  { rewrite Hr, includes_trim.
    eapply Collapsed_space_inside; [exact Hc|].
    destruct ls as [|l ls].
    - rewrite Hr in Hlen. vm_compute in Hlen. lia.
    - apply space_inside_join. apply Forall_cons in Hkeep as [Hl _].
      unfold keep_line in Hl. apply andb_true_iff in Hl as [_ Hl].
      rewrite includes_trim in Hl. exact Hl. }
  rewrite cleanReviewText_unfold. unfold cleanLines, strip_noise.
  rewrite fold_replace_no_occurrence by exact Hnoise.
  rewrite (split_no_sep _ _ Hnolf). simpl List.filter.
  unfold keep_line at 1. rewrite Htrim, Hsp.
  destruct (Nat.ltb_spec 15 (length (rejoin ls))); [|lia]. simpl.
  unfold rejoin at 1. simpl join.
  rewrite replace_no_occurrence by (apply occurs_ws_run, Hpair).
  exact Htrim.
Qed.

(** C4. The cleaner returns the empty string for the empty string, and
    cleaning is idempotent on every input whose cleaned text contains no
    occurrence of a noise pattern and is either empty or longer than 15 code
    units. *)
Theorem C4_idempotent_when_result_long (s : jsstring) :
  cleanReviewText [] = []
  ∧ (Forall (fun re => occurs re (cleanReviewText s) = false) noisePatterns ->
     cleanReviewText s = [] ∨ 15 < length (cleanReviewText s) ->
     cleanReviewText (cleanReviewText s) = cleanReviewText s).
Proof.
  split; [reflexivity|].
  rewrite (cleanReviewText_unfold s). unfold cleanLines.
  destruct (split_lines_keep (strip_noise s)) as [H1 H2].
  apply cleanReviewText_rejoin; assumption.
Qed.

Lemma C4_idempotent_when_result_long_witness :
  cleanReviewText
    (cleanReviewText
       (js "This product exceeded my expectations in every way possible."))
  = cleanReviewText
      (js "This product exceeded my expectations in every way possible.").
Proof.
  refine (proj2 (C4_idempotent_when_result_long
                   (js "This product exceeded my expectations in every way possible."))
                _ _).
  - repeat (constructor; [vm_compute; reflexivity|]). constructor.
  - right. vm_compute. lia.
Defined.

(** C4, as the specification words it: a text whose cleaned form has no noise
    pattern in it and is still not a fixed point, because collapsing left it
    too short to be kept as a line. *)
Lemma C4_short_result_not_fixed :
  Forall (fun re =>
            occurs re (cleanReviewText (js "a" ++ replicate 20 SP ++ js "b"))
            = false) noisePatterns
  ∧ cleanReviewText (cleanReviewText (js "a" ++ replicate 20 SP ++ js "b"))
    ≠ cleanReviewText (js "a" ++ replicate 20 SP ++ js "b").
Proof.
  split.
  - repeat (constructor; [vm_compute; reflexivity|]). constructor.
  - vm_compute. discriminate.
Qed.

(** * The collector *)

Section Collector.
Variable document : Document.

Lemma visit_selector_normal st sel :
  visit_selector document st sel
  = Normal (foldl visit st (matched document sel)).
Proof.
  unfold visit_selector, matched.
  destruct (querySelectorAll document sel); reflexivity.
Qed.

Lemma forEach_visit_selector selectors st :
  forEach (visit_selector document) selectors st
  = Normal (foldl visit st (flat_map (matched document) selectors)).
Proof.
  revert st. induction selectors as [|sel sels IH]; intros st; simpl.
  - reflexivity.
  - rewrite visit_selector_normal. simpl.
    rewrite IH, foldl_app. reflexivity.
Qed.

Lemma visit_cases st el :
  store_inv st ->
  store_inv (visit st el)
  ∧ out (visit st el)
    = if decide (20 < length (cleanReviewText (rawText el))
                 ∧ cleanReviewText (rawText el) ∉ out st)
      then out st ++ [cleanReviewText (rawText el)]
      else out st.
Proof.
  intros Hinv. unfold visit.
  set (c := cleanReviewText (rawText el)).
  assert (Ht : truthy (Some c) && (20 <? length c) = (20 <? length c)).
  { destruct c; reflexivity. }
  rewrite Ht. clear Ht.
  destruct (Nat.ltb_spec 20 (length c)) as [Hlen|Hlen]; simpl.
  - destruct (bool_decide_reflect (c ∈ uniqueTexts st)) as [Hin|Hin]; simpl.
    + split; [exact Hinv|].
      rewrite decide_False; [reflexivity|].
      intros [_ Hnot]. apply Hnot, Hinv, Hin.
    + split.
      * intros t. simpl. rewrite elem_of_union, elem_of_singleton.
        rewrite elem_of_app, list_elem_of_singleton, (Hinv t). tauto.
      * rewrite decide_True; [reflexivity|].
        split; [exact Hlen|]. intros Hin'. apply Hin, Hinv, Hin'.
  - split; [exact Hinv|].
    rewrite decide_False; [reflexivity|]. intros [Hl _]. lia.
Qed.

Lemma filter_first_occurrences_snoc (seen l : list jsstring) x :
  filter (fun y => y ∉ seen ++ [x]) l
  = filter (fun y => y ∉ seen) (filter (fun y => y ≠ x) l).
Proof.
  rewrite list_filter_filter. apply list_filter_iff. intros y.
  rewrite elem_of_app, list_elem_of_singleton. tauto.
Qed.

Lemma foldl_visit_out els : ∀ st,
  store_inv st ->
  store_inv (foldl visit st els)
  ∧ out (foldl visit st els)
    = out st
      ++ filter (fun y => y ∉ out st)
           (first_occurrences
              (filter (fun t => 20 < length t)
                 (map (fun el => cleanReviewText (rawText el)) els))).
Proof.
  induction els as [|el els IH]; intros st Hinv; simpl.
  - split; [exact Hinv|]. cbn. rewrite app_nil_r. reflexivity.
  - destruct (visit_cases st el Hinv) as [Hinv' Hout].
    destruct (IH _ Hinv') as [Hinv'' Hout'']. split; [exact Hinv''|].
    rewrite Hout''. clear Hout'' Hinv''.
    set (c := cleanReviewText (rawText el)) in *.
    rewrite filter_cons.
    destruct (decide (20 < length c)) as [Hlen|Hlen].
    + simpl. rewrite filter_cons.
      destruct (decide (c ∉ out st)) as [Hnew|Hold].
      * rewrite decide_True in Hout by (split; assumption). rewrite Hout.
        rewrite filter_first_occurrences_snoc, <- app_assoc. reflexivity.
      * rewrite decide_False in Hout by (intros [_ ?]; contradiction).
        rewrite Hout. f_equal. rewrite list_filter_filter. apply list_filter_iff.
        intros y. split; [|intros [Hy _]; exact Hy].
        intros Hy. split; [exact Hy|].
        intros Heq. apply Hold. rewrite <- Heq. exact Hy.
    + rewrite decide_False in Hout by (intros [? _]; contradiction).
      rewrite Hout. reflexivity.
Qed.

Lemma filter_not_in_nil (l : list jsstring) :
  filter (fun y => y ∉ ([] : list jsstring)) l = l.
Proof.
  induction l as [|x l IH]; [reflexivity|].
  rewrite filter_cons, decide_True by apply not_elem_of_nil.
  rewrite IH. reflexivity.
Qed.

Lemma map_flat_map_matched selectors :
  map (fun el => cleanReviewText (rawText el))
      (flat_map (matched document) selectors)
  = candidates document selectors.
Proof.
  unfold candidates. induction selectors as [|s sels IH]; simpl.
  - reflexivity.
  - rewrite map_app, IH. reflexivity.
Qed.

(** The collector never throws, and returns the first occurrences of the
    candidates longer than 20 code units, in discovery order. *)
Lemma gatherTextFromSelectors_spec selectors :
  gatherTextFromSelectors document selectors
  = Normal (first_occurrences
              (filter (fun t => 20 < length t)
                      (candidates document selectors))).
Proof.
  unfold gatherTextFromSelectors. rewrite forEach_visit_selector. simpl.
  f_equal.
  destruct (foldl_visit_out (flat_map (matched document) selectors)
              {| out := []; uniqueTexts := ∅ |}) as [_ Hout].
  { intros t. simpl. rewrite elem_of_empty, elem_of_nil. tauto. }
  rewrite Hout. simpl. rewrite filter_not_in_nil, map_flat_map_matched.
  reflexivity.
Qed.

(** One turn of the title loop never throws. *)
Lemma title_turn_spec s :
  title_turn document s = Normal (trim <$> title_text document s).
Proof.
  unfold title_turn, title_text, querySelector, matched.
  destruct (querySelectorAll document s) as [els|e]; simpl;
    [|reflexivity].
  destruct els as [|el els]; simpl; [reflexivity|].
  unfold element_text, js_or.
  destruct (innerText el) as [[|x t]|]; simpl;
    destruct (textContent el) as [[|y u]|]; reflexivity.
Qed.

Lemma resolveTitle_spec selectors t0 :
  resolveTitle document selectors t0
  = Normal (from_option trim t0
              (head (omap (title_text document) selectors))).
Proof.
  induction selectors as [|s sels IH]; simpl; [reflexivity|].
  rewrite title_turn_spec. simpl.
  destruct (title_text document s) as [t|]; simpl; [reflexivity|].
  exact IH.
Qed.
End Collector.

Lemma first_occurrences_subset l x : x ∈ first_occurrences l -> x ∈ l.
Proof.
  revert x. induction l as [|y l IH]; intros x; simpl; [trivial|].
  rewrite !elem_of_cons, list_elem_of_filter. intros [->|[_ Hx]]; auto.
Qed.

Lemma first_occurrences_NoDup l : NoDup (first_occurrences l).
Proof.
  induction l as [|y l IH]; simpl; constructor.
  - rewrite list_elem_of_filter. tauto.
  - apply NoDup_filter, IH.
Qed.

Lemma first_occurrences_complete l x : x ∈ l -> x ∈ first_occurrences l.
Proof.
  induction l as [|y l IH]; simpl; [trivial|].
  rewrite !elem_of_cons, list_elem_of_filter.
  intros [->|Hx]; [tauto|]. destruct (decide (x = y)); [tauto|]. auto.
Qed.

(** C2. For every selector list and every document, the reviews of the
    returned object are the first 30, in discovery order (selector-list
    order, then document order), of the distinct cleaned texts longer than 20
    code units; each of them is longer than 20 code units, they are pairwise
    distinct as code-unit sequences, and there are at most 30. *)
Theorem C2_reviews_long_distinct_first_30
  (rsel tsel : list String.string) (document : Document) :
  ∃ r, injected_with rsel tsel document = Normal r
       ∧ reviews r
         = take 30 (first_occurrences
                      (filter (fun t => 20 < length t)
                              (candidates document rsel)))
       ∧ Forall (fun t => 20 < length t) (reviews r)
       ∧ NoDup (reviews r)
       ∧ length (reviews r) ≤ 30
       ∧ (∀ t, t ∈ first_occurrences
                     (filter (fun t => 20 < length t)
                             (candidates document rsel))
               ↔ t ∈ candidates document rsel ∧ 20 < length t).
Proof.
  unfold injected_with.
  rewrite gatherTextFromSelectors_spec, resolveTitle_spec. simpl.
  eexists. split; [reflexivity|]. simpl.
  split; [reflexivity|].
  split; [|split; [|split]].
  - apply Forall_take, Forall_forall. intros t Ht.
    apply first_occurrences_subset, list_elem_of_filter in Ht. tauto.
  - eapply sublist_NoDup; [apply first_occurrences_NoDup|apply sublist_take].
  - rewrite length_take. lia.
  - intros t. split.
    + intros Ht. apply first_occurrences_subset, list_elem_of_filter in Ht.
      tauto.
    + intros [Ht Hl]. apply first_occurrences_complete, list_elem_of_filter.
      tauto.
Qed.


Lemma flat_map_matched_filter document selectors :
  flat_map (matched document)
    (List.filter (fun s => negb (throws (querySelectorAll document s)))
                 selectors)
  = flat_map (matched document) selectors.
Proof.
  induction selectors as [|s sels IH]; simpl; [reflexivity|].
  assert (Hm : throws (querySelectorAll document s) = true ->
               matched document s = []).
  { unfold matched. destruct (querySelectorAll document s); [discriminate|].
    reflexivity. }
  destruct (throws (querySelectorAll document s)); simpl.
  - rewrite Hm by reflexivity. exact IH.
  - rewrite IH. reflexivity.
Qed.

Lemma omap_title_text_filter document selectors :
  omap (title_text document)
    (List.filter (fun s => negb (throws (querySelectorAll document s)))
                 selectors)
  = omap (title_text document) selectors.
Proof.
  induction selectors as [|s sels IH]; simpl; [reflexivity|].
  assert (Hm : throws (querySelectorAll document s) = true ->
               title_text document s = None).
  { unfold title_text, matched.
    destruct (querySelectorAll document s); [discriminate|]. reflexivity. }
  destruct (throws (querySelectorAll document s)); simpl.
  - rewrite Hm by reflexivity. exact IH.
  - destruct (title_text document s); [f_equal|]; exact IH.
Qed.

Lemma candidates_found document selectors s els el :
  s ∈ selectors ->
  querySelectorAll document s = Normal els ->
  el ∈ els ->
  cleanReviewText (rawText el) ∈ candidates document selectors.
Proof.
  intros Hs Hq Hel. unfold candidates.
  apply list_elem_of_In, in_flat_map. exists s.
  split; [apply list_elem_of_In, Hs|].
  unfold matched. rewrite Hq.
  apply (in_map (fun el => cleanReviewText (rawText el))).
  apply list_elem_of_In, Hel.
Qed.

(** C6. For every selector list, a selector whose query throws is passed
    over and the remaining selectors are still processed.  The collector
    completes normally with the first occurrences, in order, of the cleaned
    texts longer than 20 code units of the elements that the selectors whose
    query returns match: every such text of every such selector is in the
    result, which is also the result on those selectors alone.  The title
    loop completes normally with the trimmed text of the first selector,
    among those whose query returns, whose first match has text, which is
    also its result on those selectors alone.  On a page that rejects the
    first review selector and the first title selector, the review and the
    heading behind them are found. *)
Theorem C6_throwing_selectors_absorbed
  (document : Document) (selectors : list String.string) :
  let ok := List.filter
              (fun s => negb (throws (querySelectorAll document s)))
              selectors in
  (∃ found, gatherTextFromSelectors document selectors = Normal found
            ∧ gatherTextFromSelectors document ok = Normal found
            ∧ found = first_occurrences
                        (filter (fun t => 20 < length t)
                                (candidates document ok))
            ∧ (∀ s els el,
                 s ∈ selectors ->
                 querySelectorAll document s = Normal els ->
                 el ∈ els ->
                 20 < length (cleanReviewText (rawText el)) ->
                 cleanReviewText (rawText el) ∈ found))
  ∧ (∃ t, resolveTitle document selectors [] = Normal t
          ∧ resolveTitle document ok [] = Normal t
          ∧ t = from_option trim []
                  (head (omap (title_text document) ok)))
  ∧ gatherTextFromSelectors page_bad_selector
      [".review:has("; ".review-text"]%string
    = Normal [js "Great battery life and build quality overall"]
  ∧ resolveTitle page_bad_selector ["#title::"; "h1"]%string []
    = Normal (js "Wireless Mouse").
Proof.
  intros ok.
  assert (Hc : candidates document ok = candidates document selectors).
  { rewrite <- !map_flat_map_matched. f_equal.
    apply flat_map_matched_filter. }
  split; [|split; [|split]].
  - eexists. split; [apply gatherTextFromSelectors_spec|].
    split; [rewrite gatherTextFromSelectors_spec, Hc; reflexivity|].
    split; [rewrite Hc; reflexivity|].
    intros s els el Hs Hq Hel Hlen.
    apply first_occurrences_complete, list_elem_of_filter.
    split; [exact Hlen|]. exact (candidates_found _ _ _ _ _ Hs Hq Hel).
  - eexists. split; [apply resolveTitle_spec|].
    assert (Ht : omap (title_text document) ok
                 = omap (title_text document) selectors)
      by apply omap_title_text_filter.
    split; [rewrite resolveTitle_spec, Ht; reflexivity|].
    rewrite Ht. reflexivity.
  - vm_compute. reflexivity.
  - vm_compute. reflexivity.
Qed.

Lemma candidates_nil document selectors :
  (∀ s els, s ∈ selectors -> querySelectorAll document s = Normal els ->
            els = []) ->
  candidates document selectors = [].
Proof.
  induction selectors as [|s sels IH]; intros H; simpl; [reflexivity|].
  unfold candidates in *. simpl. rewrite IH.
  - unfold matched.
    destruct (querySelectorAll document s) as [els|e] eqn:E; simpl;
      [|reflexivity].
    rewrite (H s els); [reflexivity|left|exact E].
  - intros s' els Hs'. apply H. right. exact Hs'.
Qed.

(** C7. For every document in which no configured review selector matches
    an element, the injected function completes normally with an empty
    review list, the resolved title (possibly empty) and the address of the
    page; the error about missing reviews is raised by the check of the
    caller on that result, not by the extraction. *)
Theorem C7_no_match_empty_result (document : Document)
  (Hnone : ∀ s els, s ∈ reviewSelectors ->
                    querySelectorAll document s = Normal els -> els = []) :
  injected document
  = Normal {| reviews := [];
              title := from_option trim []
                         (head (omap (title_text document) titleSelectors));
              url := href document |}
  ∧ (injected document ≫= summarize_check)
    = Throw (Error no_reviews_message).
Proof.
  assert (E : injected document
              = Normal {| reviews := [];
                          title := from_option trim []
                                     (head (omap (title_text document)
                                                 titleSelectors));
                          url := href document |}).
  { unfold injected, injected_with.
    rewrite gatherTextFromSelectors_spec, (candidates_nil _ _ Hnone).
    rewrite resolveTitle_spec. reflexivity. }
  split; [exact E|]. rewrite E. reflexivity.
Qed.

Lemma C7_no_match_empty_result_witness :
  (∀ s els, s ∈ reviewSelectors ->
            querySelectorAll page_blank s = Normal els -> els = [])
  ∧ injected page_blank
    = Normal {| reviews := []; title := []; url := href page_blank |}.
Proof.
  assert (H : ∀ s els, s ∈ reviewSelectors ->
                       querySelectorAll page_blank s = Normal els -> els = []).
  { intros s els _ E. simpl in E. congruence. }
  split; [exact H|].
  exact (proj1 (C7_no_match_empty_result page_blank H)).
Defined.

(** * One pass of a pattern *)

(** A pattern with a term that takes a code unit has no empty match. *)
Lemma match_at_consuming ic p : ∀ s n,
  existsb consuming p = true -> match_at ic p s = Some n -> 0 < n.
Proof.
  induction p as [|a p IH]; intros s n; [discriminate|].
  destruct a as [c|k|k].
  - intros _. destruct s as [|x s]; simpl; [discriminate|].
    destruct (char_eq ic c x); [|discriminate].
    destruct (match_at ic p s); simpl; [|discriminate]. intros [= <-]. lia.
  - intros _. destruct s as [|x s]; simpl; [discriminate|].
    destruct (in_class k x); [|discriminate].
    destruct (match_at ic p s); simpl; [|discriminate]. intros [= <-]. lia.
  - cbn [existsb consuming orb]. intros Hp. revert n.
    induction s as [|x s IHs]; intros n; rewrite match_at_star.
    + apply IH, Hp.
    + destruct (in_class k x); [|apply IH, Hp].
      destruct (match_at ic (Star k :: p) s); [|apply IH, Hp].
      intros [= <-]. lia.
Qed.

Lemma noisePatterns_consuming :
  Forall (fun re => existsb consuming (source re) = true) noisePatterns.
Proof. repeat constructor. Qed.

Section Pass.
Variable re : RegExp.
Hypothesis Hre : existsb consuming (source re) = true.

Lemma exec_at_pos s n : exec_at re s = Some n -> 0 < n.
Proof. apply match_at_consuming, Hre. Qed.

Lemma exec_at_nil : exec_at re [] = None.
Proof.
  destruct (exec_at re []) as [n|] eqn:E; [|reflexivity].
  pose proof (exec_at_pos _ _ E). apply exec_at_le in E. simpl in E. lia.
Qed.

(** A stretch in which, as it stands in the text, no match starts contains
    no occurrence. *)
Lemma occurs_false_context : ∀ u t,
  (∀ k, k < length u -> exec_at re (drop k u ++ t) = None) ->
  occurs re u = false.
Proof.
  induction u as [|x u IH]; intros t H; simpl.
  - rewrite exec_at_nil. reflexivity.
  - destruct (exec_at re (x :: u)) as [n|] eqn:E.
    + pose proof (H 0 ltac:(simpl; lia)) as H0. simpl in H0.
      destruct (match_at_app_mono (ignoreCase re) (source re) (x :: u) t)
        as [n' Hn']; [exists n; exact E|].
      simpl in Hn'. unfold exec_at in H0. congruence.
    + apply (IH t). intros k Hk. apply (H (S k)). simpl. lia.
Qed.

Lemma Cut_replace_from : ∀ n t u,
  length t = n ->
  (∀ k, k < length u -> exec_at re (drop k u ++ t) = None) ->
  Cut re (u ++ t) (u ++ replace re [] t).
Proof.
  induction n as [n IH] using lt_wf_ind. intros t u Hn Hu.
  destruct t as [|x t].
  - unfold replace. simpl. rewrite exec_at_nil, app_nil_r.
    apply Cut_end, (occurs_false_context u []), Hu.
  - rewrite replace_cons.
    destruct (exec_at re (x :: t)) as [[|m]|] eqn:E.
    + apply exec_at_pos in E. lia.
    + pose proof (exec_at_le _ _ _ E) as Hle. simpl in Hle.
      rewrite <- (take_drop m t) at 1.
      change (u ++ x :: take m t ++ drop m t)
        with (u ++ (x :: take m t) ++ drop m t).
      apply Cut_match.
      * apply (occurs_false_context u (x :: t)), Hu.
      * discriminate.
      * simpl. rewrite take_drop, length_take, E. f_equal. lia.
      * apply (IH (length (drop m t)) ltac:(rewrite length_drop; simpl in Hn; lia)
                  (drop m t) [] eq_refl).
        intros k Hk. simpl in Hk. lia.
    + change (u ++ x :: t) with (u ++ [x] ++ t).
      change (u ++ x :: replace re [] t) with (u ++ [x] ++ replace re [] t).
      rewrite !app_assoc.
      apply (IH (length t) ltac:(simpl in Hn; lia) t (u ++ [x]) eq_refl).
      intros k Hk. rewrite length_app in Hk. simpl in Hk.
      destruct (decide (k < length u)) as [Hlt|Hge].
      * rewrite drop_app_le by lia. rewrite <- app_assoc. apply Hu, Hlt.
      * assert (k = length u) as -> by lia.
        rewrite drop_app_length. exact E.
Qed.

(** The scan cuts out the matches it finds, and what it keeps between
    them is free of the pattern. *)
Lemma Cut_replace t : Cut re t (replace re [] t).
Proof.
  apply (Cut_replace_from (length t) t [] eq_refl).
  intros k Hk. simpl in Hk. lia.
Qed.
End Pass.

Lemma Passes_fold (res : list RegExp) :
  Forall (fun re => existsb consuming (source re) = true) res ->
  ∀ t, Passes res t (fold_left (fun u re => replace re [] u) res t).
Proof.
  induction 1 as [|re res Hre _ IH]; intros t; simpl.
  - constructor.
  - econstructor; [apply Cut_replace, Hre|apply IH].
Qed.

(** C1. For every input, the cleaned text is the re-joining of the kept
    lines of the text that the passes of the configured noise patterns
    leave, and the pass of each pattern, on the text the earlier passes
    left, removes the matches its left-to-right scan finds, so that no
    stretch of text it keeps before, between or behind them contains an
    occurrence of the pattern.  An occurrence in the result of the pass
    therefore spans a place where a match was removed; no pattern is applied
    a second time, so such an occurrence, and one that a later pattern or
    the re-joining of lines forms, stays in the cleaned text. *)
Theorem C1_kept_stretches_free_of_pattern (text : jsstring) :
  Passes noisePatterns text (strip_noise text)
  ∧ cleanReviewText text
    = rejoin (List.filter keep_line (split LF (strip_noise text))).
Proof.
  split.
  - apply Passes_fold, noisePatterns_consuming.
  - apply cleanReviewText_unfold.
Qed.

(** C1, as the specification words it: the deletion of one occurrence joins
    the letters around it into a new one, which the result keeps. *)
Lemma C1_joined_occurrence_remains :
  helpful ∈ noisePatterns
  ∧ cleanReviewText (js "This is a HelHelpfulpful review text")
    = js "This is a Helpful review text"
  ∧ occurs helpful
      (cleanReviewText (js "This is a HelHelpfulpful review text")) = true.
Proof.
  split; [|split].
  - do 4 right. left.
  - vm_compute. reflexivity.
  - vm_compute. reflexivity.
Qed.

(** * Occurrences and the scan *)

Section QuantifierFree.
Variable ic : bool.

Lemma fits_lookup p : ∀ u k a,
  fits ic p u = true -> p !! k = Some a ->
  ∃ x, u !! k = Some x ∧ accepts ic a x = true.
Proof.
  induction p as [|a0 p IH]; intros [|x u] k a Hf Hk; simpl in Hf;
    try discriminate.
  - destruct a0; discriminate.
  - assert (Hx : accepts ic a0 x = true ∧ fits ic p u = true).
    { destruct a0; [| |discriminate]; apply andb_true_iff in Hf; exact Hf. }
    destruct Hx as [Hx Hu]. destruct k as [|k]; simpl in Hk.
    + injection Hk as <-. exists x. split; [reflexivity|exact Hx].
    + exact (IH u k a Hu Hk).
Qed.

Lemma is_digit_not_ws x : is_digit x = true -> is_ws x = false.
Proof.
  unfold is_digit, is_ws. intros [H1 H2]%andb_true_iff.
  apply N.leb_le in H1. apply N.leb_le in H2.
  repeat match goal with
    | |- context [(?a <=? ?b)%N] => destruct (N.leb_spec a b); try lia
    | |- context [(?a =? ?b)%N] => destruct (N.eqb_spec a b); try lia
    end; reflexivity.
Qed.

Lemma atoms_disjoint_sound a b x :
  atoms_disjoint ic a b = true ->
  accepts ic a x = true -> accepts ic b x = true -> False.
Proof.
  assert (Hcls : ∀ c k, negb (in_class k (if ic then Canonicalize c else c))
                        = true ->
                        char_eq ic c x = true -> in_class k x = true -> False).
  { intros c k Hn Hc Hk. apply negb_true_iff in Hn. unfold char_eq in Hc.
    destruct ic.
    - apply N.eqb_eq in Hc. rewrite <- Hc, in_class_Canonicalize in Hn.
      congruence.
    - apply N.eqb_eq in Hc. subst x. congruence. }
  destruct a as [c1|k1|k1], b as [c2|k2|k2]; simpl; try discriminate.
  - intros Hn H1 H2. apply negb_true_iff in Hn. unfold char_eq in *.
    destruct ic; apply N.eqb_eq in H1, H2; apply N.eqb_neq in Hn; congruence.
  - intros Hn H1 H2. exact (Hcls _ _ Hn H1 H2).
  - intros Hn H1 H2. exact (Hcls _ _ Hn H2 H1).
  - destruct k1, k2; simpl; try discriminate; intros _ H1 H2.
    + apply is_digit_not_ws in H1. congruence.
    + apply is_digit_not_ws in H2. congruence.
Qed.

(** Two matches of a border-free pattern do not overlap. *)
Lemma border_free_sound p t d :
  border_free ic p = true ->
  0 < d < length p ->
  fits ic p (take (length p) t) = true ->
  fits ic p (take (length p) (drop d t)) = true ->
  False.
Proof.
  unfold border_free. rewrite forallb_forall. intros Hb Hd H1 H2.
  specialize (Hb d). rewrite existsb_exists in Hb.
  destruct Hb as (k & Hk & Hab).
  { apply list_elem_of_In, elem_of_seq. lia. }
  apply list_elem_of_In, elem_of_seq in Hk.
  destruct (p !! k) as [a|] eqn:Ea; [|discriminate].
  destruct (p !! (d + k)) as [b|] eqn:Eb; [|discriminate].
  destruct (fits_lookup _ _ _ _ H1 Eb) as (x & Hx & Hbx).
  destruct (fits_lookup _ _ _ _ H2 Ea) as (y & Hy & Hay).
  rewrite lookup_take_lt in Hx by lia.
  rewrite lookup_take_lt, lookup_drop in Hy by lia.
  assert (x = y) as -> by congruence.
  exact (atoms_disjoint_sound _ _ _ Hab Hay Hbx).
Qed.

(** The matcher on a pattern that starts with quantifier-free terms. *)
Lemma match_at_quantifier_free p q : ∀ s,
  forallb consuming p = true ->
  match_at ic (p ++ q) s
  = if fits ic p (take (length p) s)
    then (fun n => length p + n) <$> match_at ic q (drop (length p) s)
    else None.
Proof.
  induction p as [|a p IH]; intros s Hp.
  - rewrite drop_0. simpl. destruct (match_at ic q s); reflexivity.
  - simpl in Hp. apply andb_true_iff in Hp as [Ha Hp].
    destruct a as [c|k|k]; [| |discriminate]; destruct s as [|x s]; simpl;
      try reflexivity.
    + destruct (char_eq ic c x); [|reflexivity]. rewrite (IH s Hp). simpl.
      destruct (fits ic p (take (length p) s)); [|reflexivity].
      destruct (match_at ic q (drop (length p) s)); reflexivity.
    + destruct (in_class k x); [|reflexivity]. rewrite (IH s Hp). simpl.
      destruct (fits ic p (take (length p) s)); [|reflexivity].
      destruct (match_at ic q (drop (length p) s)); reflexivity.
Qed.


(** A last term that refuses [x] keeps every match clear of a final [x]. *)
Lemma match_at_snoc p a x :
  forallb consuming (p ++ [a]) = true ->
  accepts ic a x = false ->
  ∀ s, match_at ic (p ++ [a]) (s ++ [x]) = match_at ic (p ++ [a]) s.
Proof.
  intros Hp Ha. induction p as [|a0 p IH]; intros s.
  - destruct a as [c|k|k]; [| |discriminate]; simpl in Ha;
      destruct s as [|y s]; simpl; rewrite ?Ha; reflexivity.
  - simpl in Hp. apply andb_true_iff in Hp as [Ha0 Hp]. specialize (IH Hp).
    assert (Hnil : match_at ic (p ++ [a]) [] = None).
    { destruct p as [|a1 p]; [destruct a|destruct a1]; try discriminate;
        reflexivity. }
    destruct a0 as [c|k|k]; [| |discriminate]; destruct s as [|y s]; simpl.
    + rewrite Hnil. destruct (char_eq ic c x); reflexivity.
    + rewrite IH. reflexivity.
    + rewrite Hnil. destruct (in_class k x); reflexivity.
    + rewrite IH. reflexivity.
Qed.
End QuantifierFree.




Lemma class_prefix_all_inv k u :
  class_prefix k u = length u -> Forall (fun x => in_class k x = true) u.
Proof.
  induction u as [|x u IH]; simpl; [constructor|].
  destruct (in_class k x) eqn:E; [|discriminate].
  intros [= H]. constructor; auto.
Qed.



Section Barrier.
Variable re : RegExp.

(** An occurrence that no match from further left cuts into, other than by
    covering it whole, splits the scan: the text before it and the text
    behind it are scanned on their own. *)
Lemma replace_barrier m b :
  exec_at re [] = None ->
  m ≠ [] ->
  exec_at re (m ++ b) = Some (length m) ->
  (∀ a, a ≠ [] ->
        exec_at re (a ++ m ++ b) = exec_at re a
        ∨ (exec_at re (a ++ m ++ b) = Some (length a + length m)
           ∧ exec_at re a = Some (length a))) ->
  ∀ a, replace re [] (a ++ m ++ b) = replace re [] a ++ replace re [] b.
Proof.
  intros H0 Hm Hex Hpre a.
  assert (Hnil : replace re [] [] = []).
  { unfold replace. simpl. rewrite H0. reflexivity. }
  remember (length a) as n eqn:En. revert a En.
  induction n as [n IH] using lt_wf_ind. intros a ->.
  destruct a as [|x a].
  - rewrite Hnil. simpl. destruct m as [|y m]; [contradiction|].
    simpl app. rewrite replace_cons.
    change (y :: m ++ b) with ((y :: m) ++ b). rewrite Hex. simpl.
    rewrite drop_app_length. reflexivity.
  - destruct (Hpre (x :: a) ltac:(discriminate)) as [E|[E1 E2]].
    + simpl app. rewrite !replace_cons.
      change (x :: a ++ m ++ b) with ((x :: a) ++ m ++ b). rewrite E.
      destruct (exec_at re (x :: a)) as [[|k]|] eqn:Ea; simpl.
      * f_equal. apply (IH (length a)); [simpl; lia|reflexivity].
      * apply exec_at_le in Ea. simpl in Ea.
        rewrite drop_app_le by lia.
        apply (IH (length (drop k a))); [|reflexivity].
        rewrite length_drop. simpl. lia.
      * f_equal. apply (IH (length a)); [simpl; lia|reflexivity].
    + rewrite replace_cons, E2. simpl length. simpl.
      rewrite drop_all, Hnil. simpl.
      simpl app. rewrite replace_cons.
      change (x :: a ++ m ++ b) with ((x :: a) ++ m ++ b). rewrite E1.
      simpl. rewrite app_assoc, <- length_app, drop_app_length. reflexivity.
Qed.

(** Appending a code unit that ends no match changes nothing before it. *)
Lemma replace_from_snoc x :
  exec_at re [] = None ->
  (∀ s, exec_at re (s ++ [x]) = exec_at re s) ->
  ∀ a k, k ≤ length a ->
    replace_from re [] k (a ++ [x]) = replace_from re [] k a ++ [x].
Proof.
  intros H0 Hx. induction a as [|y a IH]; intros k Hk.
  - simpl in Hk. assert (k = 0) as -> by lia.
    pose proof (Hx []) as E. simpl in *. rewrite E, H0. reflexivity.
  - pose proof (Hx (y :: a)) as E. destruct k as [|k]; simpl in *.
    + rewrite E. destruct (exec_at re (y :: a)) as [[|n]|] eqn:Ea.
      * rewrite IH by lia. reflexivity.
      * apply exec_at_le in Ea. simpl in Ea. apply IH. lia.
      * rewrite IH by lia. reflexivity.
    + apply IH. lia.
Qed.
End Barrier.

(** ** Patterns without quantifier *)

Lemma exec_at_quantifier_free re s :
  forallb consuming (source re) = true ->
  exec_at re s
  = if fits (ignoreCase re) (source re) (take (length (source re)) s)
    then Some (length (source re)) else None.
Proof.
  intros Hq. unfold exec_at.
  rewrite <- (app_nil_r (source re)) at 1.
  rewrite match_at_quantifier_free by exact Hq. simpl.
  destruct (fits _ _ _); [|reflexivity]. f_equal. lia.
Qed.

Lemma forallb_consuming_existsb p :
  p ≠ [] -> forallb consuming p = true -> existsb consuming p = true.
Proof.
  destruct p as [|a p]; [contradiction|]. simpl.
  intros _ [-> _]%andb_true_iff. reflexivity.
Qed.

(** The scan of a border-free pattern without quantifier removes every
    occurrence, each as a whole. *)
Lemma replace_occurrence_quantifier_free re :
  source re ≠ [] ->
  forallb consuming (source re) = true ->
  border_free (ignoreCase re) (source re) = true ->
  ∀ a m b,
    exec_at re (m ++ b) = Some (length m) ->
    replace re [] (a ++ m ++ b) = replace re [] a ++ replace re [] b.
Proof.
  intros Hne Hq Hb a m b Hex.
  pose proof (forallb_consuming_existsb _ Hne Hq) as Hc.
  pose proof (exec_at_pos re Hc _ _ Hex) as Hpos.
  apply replace_barrier; [apply exec_at_nil, Hc| |exact Hex|].
  { intros ->. simpl in Hpos. lia. }
  clear a. intros a Ha. left.
  set (n := length (source re)) in *.
  rewrite exec_at_quantifier_free in Hex by exact Hq.
  destruct (fits _ _ (take _ (m ++ b))) eqn:Hfm; [|discriminate].
  injection Hex as Hn. fold n in Hfm, Hn.
  rewrite !exec_at_quantifier_free by exact Hq. fold n.
  destruct (decide (n ≤ length a)) as [Hle|Hgt].
  - rewrite take_app_le by exact Hle. reflexivity.
  - assert (Hfa : fits (ignoreCase re) (source re) (take n a) = false).
    { destruct (fits _ _ (take n a)) eqn:E; [|reflexivity].
      apply fits_length in E. rewrite length_take in E. fold n in E. lia. }
    rewrite Hfa.
    destruct (fits _ _ (take n (a ++ m ++ b))) eqn:E; [|reflexivity].
    exfalso. apply (border_free_sound _ _ (a ++ m ++ b) (length a) Hb).
    + split; [destruct a; [contradiction|simpl; lia]|unfold n in *; lia].
    + exact E.
    + rewrite drop_app_length. exact Hfm.
Qed.

(** ** The stamps *)






(** The pass of Helpful runs before the two vote-count patterns and takes
    the word they end with, so that a vote count is left without it. *)
Lemma vote_count_left_without_helpful :
  cleanReviewText (js "Great product. 12 people found this helpful")
  = js "Great product. 12 people found this"
  ∧ cleanReviewText (js "Works well. One person found this helpful")
    = js "Works well. One person found this".
Proof. split; vm_compute; reflexivity. Qed.

(** * Helpful and Report inside words *)

Lemma exec_at_same_letters re lit m b :
  ignoreCase re = true ->
  forallb consuming (source re) = true ->
  fits true (source re) (map Canonicalize lit) = true ->
  same_letters m lit ->
  exec_at re (m ++ b) = Some (length m).
Proof.
  intros Hi Hq Hfit Hm.
  assert (Hf : fits true (source re) m = true).
  { rewrite <- fits_Canonicalize, Hm. exact Hfit. }
  rewrite exec_at_quantifier_free by exact Hq. rewrite Hi.
  rewrite <- (fits_length _ _ _ Hf), take_app_length, Hf. reflexivity.
Qed.

Lemma replace_helpful_un a :
  replace helpful [] (a ++ js "un") = replace helpful [] a ++ js "un".
Proof.
  change (js "un") with ([117%N] ++ [110%N]).
  rewrite app_assoc.
  rewrite (replace_sep helpful [] 110%N (a ++ [117%N]) [])
    by (repeat constructor).
  unfold replace at 1.
  rewrite (replace_from_snoc helpful 117%N); [| reflexivity | | simpl; lia].
  - rewrite <- app_assoc. reflexivity.
  - intros s. apply (match_at_snoc true (lit "Helpfu") (Char 108%N));
      reflexivity.
Qed.

Lemma replace_report_ed b :
  replace report [] (js "ed" ++ b) = js "ed" ++ replace report [] b.
Proof.
  change (js "ed" ++ b) with ([101%N] ++ 100%N :: b).
  rewrite (replace_sep report [] 100%N [101%N] b) by (repeat constructor).
  reflexivity.
Qed.

(** C9. The passes of Helpful and Report remove every occurrence of their
    word, in any letter case, each as a whole and also where it is part of a
    longer word: of a text with "un" and the word between [a] and [b] the
    pass of Helpful leaves the result for [a], "un", and the result for
    [b]; in the same way the pass of Report leaves "ed" of "reported".  The
    cleaned text shows the damaged word where the line is kept, as in the
    example. *)
Theorem C9_helpful_report_inside_words :
  (∀ a m b, same_letters m (js "helpful") ->
     replace helpful [] (a ++ m ++ b)
     = replace helpful [] a ++ replace helpful [] b
     ∧ replace helpful [] (a ++ js "un" ++ m ++ b)
       = replace helpful [] a ++ js "un" ++ replace helpful [] b)
  ∧ (∀ a m b, same_letters m (js "report") ->
       replace report [] (a ++ m ++ b)
       = replace report [] a ++ replace report [] b
       ∧ replace report [] (a ++ m ++ js "ed" ++ b)
         = replace report [] a ++ js "ed" ++ replace report [] b)
  ∧ cleanReviewText (js "The manual was unhelpful and I reported it")
    = js "The manual was un and I ed it".
Proof.
  assert (Hh : ∀ a m b, exec_at helpful (m ++ b) = Some (length m) ->
                 replace helpful [] (a ++ m ++ b)
                 = replace helpful [] a ++ replace helpful [] b).
  { apply replace_occurrence_quantifier_free;
      [discriminate|reflexivity|vm_compute; reflexivity]. }
  assert (Hr : ∀ a m b, exec_at report (m ++ b) = Some (length m) ->
                 replace report [] (a ++ m ++ b)
                 = replace report [] a ++ replace report [] b).
  { apply replace_occurrence_quantifier_free;
      [discriminate|reflexivity|vm_compute; reflexivity]. }
  split; [|split].
  - intros a m b Hm.
    assert (Hex : ∀ t, exec_at helpful (m ++ t) = Some (length m)).
    { intros t. apply (exec_at_same_letters helpful (js "helpful"));
        [reflexivity|reflexivity|vm_compute; reflexivity|exact Hm]. }
    split; [apply Hh, Hex|].
    rewrite (app_assoc a (js "un")), (Hh _ _ _ (Hex b)).
    rewrite replace_helpful_un, <- app_assoc. reflexivity.
  - intros a m b Hm.
    assert (Hex : ∀ t, exec_at report (m ++ t) = Some (length m)).
    { intros t. apply (exec_at_same_letters report (js "report"));
        [reflexivity|reflexivity|vm_compute; reflexivity|exact Hm]. }
    split; [apply Hr, Hex|].
    rewrite (Hr _ _ _ (Hex _)), replace_report_ed. reflexivity.
  - vm_compute. reflexivity.
Qed.

Lemma C9_helpful_report_inside_words_witness :
  same_letters (js "HELPFUL") (js "helpful")
  ∧ replace helpful [] (js "It was " ++ js "un" ++ js "HELPFUL" ++ js "!")
    = replace helpful [] (js "It was ") ++ js "un"
      ++ replace helpful [] (js "!").
Proof.
  assert (Hm : same_letters (js "HELPFUL") (js "helpful")) by reflexivity.
  split; [exact Hm|].
  exact (proj2 (proj1 C9_helpful_report_inside_words
                      (js "It was ") (js "HELPFUL") (js "!") Hm)).
Defined.

(** C9, as the specification words it: an input that contains "unhelpful"
    and whose cleaned text does not contain "un", the line being too short
    to be kept. *)
Lemma C9_unhelpful_alone_dropped :
  cleanReviewText (js "unhelpful") = []
  ∧ ¬ ∃ a b, cleanReviewText (js "unhelpful") = a ++ js "un" ++ b.
Proof.
  assert (E : cleanReviewText (js "unhelpful") = [])
    by (vm_compute; reflexivity).
  split; [exact E|]. rewrite E. intros (a & b & H).
  destruct a; discriminate H.
Qed.

(** * Further properties of the cleaner *)

Lemma length_replace_from re : ∀ s k,
  length (replace_from re [] k s) ≤ length s.
Proof.
  induction s as [|x s IH]; intros k.
  - destruct k; simpl; [destruct (exec_at re [])|]; simpl; lia.
  - destruct k as [|k]; simpl.
    + destruct (exec_at re (x :: s)) as [[|n]|]; simpl.
      * specialize (IH 0). lia.
      * specialize (IH n). lia.
      * specialize (IH 0). lia.
    + specialize (IH k). lia.
Qed.

Lemma length_strip_noise text : length (strip_noise text) ≤ length text.
Proof.
  unfold strip_noise. generalize noisePatterns. intros res. revert text.
  induction res as [|re res IH]; intros text; simpl; [lia|].
  etransitivity; [apply IH|]. apply length_replace_from.
Qed.

Lemma join_cons sep l ls :
  ls ≠ [] -> join sep (l :: ls) = l ++ sep ++ join sep ls.
Proof. destruct ls; [contradiction|reflexivity]. Qed.

Lemma length_join_split c d s : length (join [d] (split c s)) = length s.
Proof.
  induction s as [|x s IH]; simpl; [reflexivity|].
  pose proof (split_nonempty c s) as Hne.
  destruct (x =? c)%N.
  - rewrite join_cons by exact Hne. simpl. rewrite IH. reflexivity.
  - destruct (split c s) as [|l ls]; [contradiction|].
    destruct ls as [|l' ls]; [simpl in *; lia|].
    rewrite join_cons in * by discriminate. simpl in *. lia.
Qed.

Lemma length_join_filter (f : jsstring -> bool) sep ls :
  length (join sep (List.filter f ls)) ≤ length (join sep ls).
Proof.
  induction ls as [|l ls IH]; [simpl; lia|].
  assert (Hcons : ∀ ls', length (join sep (l :: ls'))
                         ≤ length l + length sep + length (join sep ls')).
  { intros [|l' ls']; [simpl; lia|].
    rewrite join_cons, !length_app by discriminate. lia. }
  destruct ls as [|l' ls].
  - simpl. destruct (f l); simpl; lia.
  - rewrite (join_cons sep l (l' :: ls)), !length_app by discriminate.
    cbn [List.filter]. cbn [List.filter] in IH.
    destruct (f l).
    + etransitivity; [apply Hcons|]. lia.
    + lia.
Qed.

Lemma Collapsed_length s r : Collapsed s r -> length r ≤ length s.
Proof.
  induction 1; simpl; rewrite ?length_app; simpl; lia.
Qed.

Lemma length_trim s : length (trim s) ≤ length s.
Proof.
  unfold trim.
  assert (H1 : ∀ u, length (trimEnd u) ≤ length u).
  { induction u as [|x u IH]; simpl; [lia|].
    destruct (trimEnd u); [destruct (is_ws x)|]; simpl in *; lia. }
  assert (H2 : length (trimStart s) ≤ length s).
  { induction s as [|x s IH]; simpl; [lia|].
    destruct (is_ws x); simpl; lia. }
  specialize (H1 (trimStart s)). lia.
Qed.

(** X1.  The cleaned text is never longer than the text. *)
Theorem cleanReviewText_length text :
  length (cleanReviewText text) ≤ length text.
Proof.
  rewrite cleanReviewText_unfold. unfold rejoin, cleanLines.
  etransitivity; [apply length_trim|].
  etransitivity; [apply Collapsed_length, replace_ws_run_Collapsed|].
  etransitivity; [apply length_join_filter|].
  rewrite length_join_split. apply length_strip_noise.
Qed.

Lemma ws_pair_adjacent s :
  ws_pair s = false ->
  ∀ a x y b, s = a ++ x :: y :: b -> is_ws x = false ∨ is_ws y = false.
Proof.
  induction s as [|z s IH]; intros H a x y b E.
  - destruct a; discriminate.
  - simpl in H. apply orb_false_iff in H as [H1 H2].
    destruct a as [|z' a]; simpl in E; injection E as -> E.
    + subst s. simpl in H1. apply andb_false_iff in H1. exact H1.
    + exact (IH H2 _ _ _ _ E).
Qed.

(** X2.  The cleaned text is in normal form: trimming changes nothing, it has no
    line feed, and no two whitespace code units follow each other. *)
Theorem cleanReviewText_normal_form text :
  trim (cleanReviewText text) = cleanReviewText text
  ∧ (LF ∉ cleanReviewText text)
  ∧ (∀ a x y b, cleanReviewText text = a ++ x :: y :: b ->
                is_ws x = false ∨ is_ws y = false).
Proof.
  rewrite cleanReviewText_unfold. unfold cleanLines.
  destruct (split_lines_keep (strip_noise text)) as [Hlf _].
  set (ls := List.filter keep_line (split LF (strip_noise text))) in *.
  pose proof (replace_ws_run_Collapsed (join [SP] ls)) as Hc.
  unfold rejoin. split; [apply trim_idem|]. split.
  - assert (H : Forall (fun x => x ≠ LF)
                  (trim (replace ws_run [SP] (join [SP] ls)))).
    { apply Forall_trim.
      eapply Collapsed_Forall; [discriminate|exact Hc|].
      apply Forall_join; [repeat constructor; discriminate|exact Hlf]. }
    intros Hin. exact (proj1 (Forall_forall _ _) H LF Hin eq_refl).
  - apply ws_pair_adjacent, ws_pair_trim. eapply Collapsed_ws_pair, Hc.
Qed.

(** ** Texts that are rejected whole *)

Lemma Forall_split_each (P : N -> Prop) c s :
  Forall P s -> Forall (Forall P) (split c s).
Proof.
  induction 1 as [|x s Hx Hs IH]; simpl; [repeat constructor|].
  destruct (x =? c)%N; [constructor; [constructor|exact IH]|].
  destruct (split c s) as [|l ls]; [repeat constructor; assumption|].
  apply Forall_cons in IH as [Hl Hls]. repeat constructor; assumption.
Qed.

Lemma length_split_each c s :
  Forall (fun l => length l ≤ length s) (split c s).
Proof.
  induction s as [|x s IH]; simpl; [repeat constructor|].
  assert (Hmono : Forall (fun l => length l ≤ S (length s)) (split c s)).
  { eapply Forall_impl; [exact IH|]. simpl. intros; lia. }
  destruct (x =? c)%N; [constructor; [simpl; lia|exact Hmono]|].
  destruct (split c s) as [|l ls].
  - constructor; [simpl; lia|constructor].
  - apply Forall_cons in IH as [Hl _]. apply Forall_cons in Hmono as [_ Hls].
    constructor; [simpl; lia|exact Hls].
Qed.

Lemma filter_keep_line_nil ls :
  Forall (fun l => keep_line l = false) ls -> List.filter keep_line ls = [].
Proof.
  induction 1 as [|l ls Hl _ IH]; simpl; [reflexivity|].
  rewrite Hl. exact IH.
Qed.

Lemma Forall_strip_noise (P : N -> Prop) text :
  Forall P text -> Forall P (strip_noise text).
Proof.
  unfold strip_noise. generalize noisePatterns. intros res. revert text.
  induction res as [|re res IH]; intros text H; simpl; [exact H|].
  apply IH, Forall_replace, H.
Qed.

Lemma includes_false c s : includes c s = false ↔ Forall (fun x => x ≠ c) s.
Proof.
  induction s as [|x s IH]; [split; [constructor|reflexivity]|].
  rewrite includes_cons, orb_false_iff, Forall_cons, IH, N.eqb_neq. tauto.
Qed.

(** X3.  A text without a space is rejected, however long it is. *)
Theorem cleanReviewText_no_space text :
  includes SP text = false -> cleanReviewText text = [].
Proof.
  intros H. apply includes_false in H.
  rewrite cleanReviewText_unfold. unfold cleanLines.
  rewrite filter_keep_line_nil; [reflexivity|].
  eapply Forall_impl;
    [exact (Forall_split_each _ LF _ (Forall_strip_noise _ _ H))|].
  intros l Hl. unfold keep_line.
  rewrite (proj2 (includes_false SP (trim l)) (Forall_trim _ _ Hl)).
  apply andb_false_r.
Qed.

Lemma cleanReviewText_no_space_witness :
  cleanReviewText (js "supercalifragilisticexpialidocious") = [].
Proof.
  exact (cleanReviewText_no_space
           (js "supercalifragilisticexpialidocious") eq_refl).
Defined.

(** X4.  A text of at most 15 code units is rejected. *)
Theorem cleanReviewText_short text :
  length text ≤ 15 -> cleanReviewText text = [].
Proof.
  intros H. rewrite cleanReviewText_unfold. unfold cleanLines.
  rewrite filter_keep_line_nil; [reflexivity|].
  eapply Forall_impl; [exact (length_split_each LF (strip_noise text))|].
  intros l Hl. simpl in Hl. unfold keep_line.
  pose proof (length_trim l). pose proof (length_strip_noise text).
  destruct (Nat.ltb_spec 15 (length (trim l))); [lia|reflexivity].
Qed.

Lemma cleanReviewText_short_witness :
  cleanReviewText (js "Works very well") = [].
Proof.
  refine (cleanReviewText_short (js "Works very well") _).
  vm_compute. repeat constructor.
Defined.

(** ** Lines are cleaned one by one *)

(** X5.  The kept lines of a text are those of its blocks between line feeds, so
    that a block none of whose lines is kept leaves no trace in the cleaned
    text. *)
Theorem cleanReviewText_blocks a b :
  cleanReviewText (a ++ LF :: b) = rejoin (cleanLines a ++ cleanLines b)
  ∧ (cleanLines a = [] ->
     cleanReviewText (a ++ LF :: b) = cleanReviewText b)
  ∧ (cleanLines b = [] ->
     cleanReviewText (a ++ LF :: b) = cleanReviewText a).
Proof.
  rewrite !cleanReviewText_unfold, cleanLines_app.
  split; [reflexivity|]. split; intros ->; [reflexivity|].
  rewrite app_nil_r. reflexivity.
Qed.

Lemma cleanReviewText_blocks_witness :
  cleanReviewText (js "Anna K." ++ LF :: js "Best kettle I have ever owned.")
  = cleanReviewText (js "Best kettle I have ever owned.").
Proof.
  refine (proj1 (proj2 (cleanReviewText_blocks
                          (js "Anna K.")
                          (js "Best kettle I have ever owned."))) _).
  vm_compute. reflexivity.
Defined.

(** ** The vote-count patterns *)

Lemma match_at_app_inv ic p q : ∀ s n,
  match_at ic (p ++ q) s = Some n ->
  ∃ k, is_Some (match_at ic q (drop k s)).
Proof.
  induction p as [|a p IH]; intros s n H.
  - exists 0. rewrite drop_0. simpl in H. eauto.
  - destruct a as [c|k0|k0].
    + destruct s as [|x s]; simpl in H; [discriminate|].
      destruct (char_eq ic c x); [|discriminate].
      destruct (match_at ic (p ++ q) s) as [m|] eqn:E; [|discriminate].
      destruct (IH _ _ E) as [k Hk]. exists (S k). exact Hk.
    + destruct s as [|x s]; simpl in H; [discriminate|].
      destruct (in_class k0 x); [|discriminate].
      destruct (match_at ic (p ++ q) s) as [m|] eqn:E; [|discriminate].
      destruct (IH _ _ E) as [k Hk]. exists (S k). exact Hk.
    + change ((Star k0 :: p) ++ q) with (Star k0 :: (p ++ q)) in H.
      revert n H. induction s as [|x s IHs]; intros n H;
        rewrite match_at_star in H.
      * exact (IH _ _ H).
      * destruct (in_class k0 x); [|exact (IH _ _ H)].
        destruct (match_at ic (Star k0 :: p ++ q) s) as [m|] eqn:E;
          [|exact (IH _ _ H)].
        destruct (IHs _ eq_refl) as [k Hk]. exists (S k). exact Hk.
Qed.

Lemma occurs_intro re : ∀ s k,
  is_Some (exec_at re (drop k s)) -> occurs re s = true.
Proof.
  induction s as [|x s IH]; intros k H.
  - rewrite drop_nil in H. simpl. destruct H as [n ->]. reflexivity.
  - simpl. destruct k as [|k].
    + rewrite drop_0 in H. destruct H as [n ->]. reflexivity.
    + destruct (exec_at re (x :: s)); [reflexivity|]. exact (IH k H).
Qed.

Lemma occurs_elim re : ∀ s,
  occurs re s = true -> ∃ k, is_Some (exec_at re (drop k s)).
Proof.
  induction s as [|x s IH]; simpl; intros H.
  - destruct (exec_at re []) eqn:E; [|discriminate]. exists 0. simpl.
    rewrite E. eauto.
  - destruct (exec_at re (x :: s)) eqn:E.
    + exists 0. rewrite drop_0, E. eauto.
    + destruct (IH H) as [k Hk]. exists (S k). exact Hk.
Qed.

Lemma fits_lit_same_letters l1 l2 : ∀ u,
  same_letters l1 l2 ->
  fits true (map Char l1) u = fits true (map Char l2) u.
Proof.
  revert l2. induction l1 as [|c1 l1 IH]; intros [|c2 l2] u H;
    try discriminate; [reflexivity|].
  unfold same_letters in H. simpl in H. injection H as Hc Hl.
  destruct u as [|x u]; simpl; [reflexivity|].
  rewrite (IH l2 u Hl). unfold char_eq. rewrite Hc. reflexivity.
Qed.

(** A pattern that ends with the letters of another one occurs only where
    that one does. *)
Lemma occurs_suffix_pattern re p l1 l2 s :
  ignoreCase re = true ->
  source re = p ++ map Char l1 ->
  same_letters l1 l2 ->
  occurs {| source := map Char l2; ignoreCase := true |} s = false ->
  occurs re s = false.
Proof.
  intros Hi Hsrc Hl Hno. destruct (occurs re s) eqn:E; [|reflexivity].
  apply occurs_elim in E as [k [n Hn]]. unfold exec_at in Hn.
  rewrite Hsrc, Hi in Hn.
  destruct (match_at_app_inv _ _ _ _ _ Hn) as [j [m Hm]].
  rewrite drop_drop in Hm.
  assert (Hq : forallb consuming (map Char l1) = true).
  { clear. induction l1; simpl; auto. }
  rewrite <- (app_nil_r (map Char l1)) in Hm.
  rewrite match_at_quantifier_free in Hm by exact Hq.
  destruct (fits true (map Char l1) _) eqn:Hf; [|discriminate].
  rewrite (fits_lit_same_letters _ _ _ Hl) in Hf.
  assert (Hlen : length (map Char l1) = length (map Char l2)).
  { rewrite !length_map. exact (same_letters_length _ _ Hl). }
  rewrite Hlen in Hf.
  assert (Hq2 : forallb consuming (map Char l2) = true).
  { clear. induction l2; simpl; auto. }
  rewrite <- Hno. symmetry. apply (occurs_intro _ s (k + j)).
  unfold exec_at. simpl source. simpl ignoreCase.
  rewrite <- (app_nil_r (map Char l2)).
  rewrite match_at_quantifier_free by exact Hq2. rewrite Hf. simpl. eauto.
Qed.

(** X7.  The two vote-count patterns remove nothing from a text in which the word
    "helpful" does not occur in any letter case; in [cleanReviewText] they
    run after the pattern that removes that word. *)
Theorem vote_count_patterns_need_helpful text :
  occurs helpful text = false ->
  replace people_found_helpful [] text = text
  ∧ replace one_person_found_helpful [] text = text.
Proof.
  intros H. split; apply replace_no_occurrence.
  - apply (occurs_suffix_pattern _
             (Plus Digit ++ lit " people found this ")
             (js "helpful") (js "Helpful")); auto; reflexivity.
  - apply (occurs_suffix_pattern _ (lit "One person found this ")
             (js "helpful") (js "Helpful")); auto; reflexivity.
Qed.

Lemma vote_count_patterns_need_helpful_witness :
  replace people_found_helpful []
    (replace helpful [] (js "Nice. 12 people found this helpful"))
  = replace helpful [] (js "Nice. 12 people found this helpful").
Proof.
  refine (proj1 (vote_count_patterns_need_helpful
                   (replace helpful []
                      (js "Nice. 12 people found this helpful")) _)).
  vm_compute. reflexivity.
Defined.

(** * Letter case *)

Lemma Canonicalize_eqb c x :
  (c < 65)%N -> (Canonicalize x =? c)%N = (x =? c)%N.
Proof.
  intros Hc. unfold Canonicalize.
  destruct ((97 <=? x)%N && (x <=? 122)%N) eqn:E; [|reflexivity].
  apply andb_true_iff in E as [E1 E2].
  apply N.leb_le in E1. apply N.leb_le in E2.
  destruct (N.eqb_spec (x - 32) c); destruct (N.eqb_spec x c); try lia;
    reflexivity.
Qed.

Lemma is_ws_Canonicalize x : is_ws (Canonicalize x) = is_ws x.
Proof. exact (in_class_Canonicalize Space x). Qed.

Lemma trimStart_map s :
  trimStart (map Canonicalize s) = map Canonicalize (trimStart s).
Proof.
  induction s as [|x s IH]; simpl; [reflexivity|].
  rewrite is_ws_Canonicalize. destruct (is_ws x); [exact IH|reflexivity].
Qed.

Lemma trimEnd_map s :
  trimEnd (map Canonicalize s) = map Canonicalize (trimEnd s).
Proof.
  induction s as [|x s IH]; simpl; [reflexivity|].
  rewrite IH, is_ws_Canonicalize.
  destruct (trimEnd s); [destruct (is_ws x)|]; reflexivity.
Qed.

Lemma trim_map s : trim (map Canonicalize s) = map Canonicalize (trim s).
Proof. unfold trim. rewrite trimStart_map, trimEnd_map. reflexivity. Qed.

Lemma includes_map c s :
  (c < 65)%N -> includes c (map Canonicalize s) = includes c s.
Proof.
  intros Hc. induction s as [|x s IH]; [reflexivity|].
  cbn [map]. rewrite !includes_cons, IH, Canonicalize_eqb by exact Hc.
  reflexivity.
Qed.

Lemma keep_line_map l : keep_line (map Canonicalize l) = keep_line l.
Proof.
  unfold keep_line. rewrite trim_map, length_map, includes_map; [reflexivity|].
  reflexivity.
Qed.

Lemma split_map c s :
  (c < 65)%N ->
  split c (map Canonicalize s) = map (map Canonicalize) (split c s).
Proof.
  intros Hc. induction s as [|x s IH]; [reflexivity|].
  cbn [map split]. rewrite IH, Canonicalize_eqb by exact Hc.
  destruct (x =? c)%N; [reflexivity|].
  destruct (split c s); reflexivity.
Qed.

Lemma join_map sep ls :
  join (map Canonicalize sep) (map (map Canonicalize) ls)
  = map Canonicalize (join sep ls).
Proof.
  induction ls as [|l ls IH]; [reflexivity|].
  destruct ls as [|l' ls]; [reflexivity|].
  rewrite (join_cons sep l (l' :: ls)) by discriminate.
  cbn [map]. rewrite join_cons by discriminate.
  cbn [map] in IH. rewrite IH, !map_app. reflexivity.
Qed.

Lemma filter_keep_line_map ls :
  List.filter keep_line (map (map Canonicalize) ls)
  = map (map Canonicalize) (List.filter keep_line ls).
Proof.
  induction ls as [|l ls IH]; [reflexivity|].
  cbn [map List.filter]. rewrite keep_line_map, IH.
  destruct (keep_line l); reflexivity.
Qed.

Lemma replace_from_map re r :
  (∀ s, exec_at re (map Canonicalize s) = exec_at re s) ->
  ∀ s k,
    replace_from re (map Canonicalize r) k (map Canonicalize s)
    = map Canonicalize (replace_from re r k s).
Proof.
  intros Hex. induction s as [|x s IH]; intros k.
  - pose proof (Hex []) as E. destruct k; simpl in *; [|reflexivity].
    destruct (exec_at re []); reflexivity.
  - pose proof (Hex (x :: s)) as E. destruct k as [|k]; simpl in *.
    + rewrite E. destruct (exec_at re (x :: s)) as [[|n]|].
      * rewrite IH, map_app. reflexivity.
      * rewrite IH, map_app. reflexivity.
      * rewrite IH. reflexivity.
    + apply IH.
Qed.

Lemma ws_prefix_map s : ws_prefix (map Canonicalize s) = ws_prefix s.
Proof.
  induction s as [|x s IH]; simpl; [reflexivity|].
  rewrite is_ws_Canonicalize, IH. reflexivity.
Qed.

Lemma exec_at_ws_run_map s :
  exec_at ws_run (map Canonicalize s) = exec_at ws_run s.
Proof.
  rewrite !exec_at_ws_run. destruct s as [|x [|y s]]; try reflexivity.
  cbn [map]. rewrite !is_ws_Canonicalize, ws_prefix_map. reflexivity.
Qed.

Lemma strip_noise_map text :
  strip_noise (map Canonicalize text) = map Canonicalize (strip_noise text).
Proof.
  unfold strip_noise.
  assert (H : Forall (fun re => ignoreCase re = true) noisePatterns)
    by (repeat constructor).
  revert text. induction H as [|re res Hre _ IH]; intros text; simpl;
    [reflexivity|].
  rewrite <- IH. f_equal.
  apply (replace_from_map re []). intros s.
  apply exec_at_Canonicalize, Hre.
Qed.

(** X6.  The cleaner does not look at the case of letters: changing the letters
    a to z of the text to upper case changes the cleaned text in the same
    way and in nothing else. *)
Theorem cleanReviewText_upper_case text :
  cleanReviewText (map Canonicalize text)
  = map Canonicalize (cleanReviewText text).
Proof.
  rewrite !cleanReviewText_unfold. unfold rejoin, cleanLines.
  rewrite strip_noise_map, split_map by reflexivity.
  rewrite filter_keep_line_map.
  set (ls := List.filter keep_line (split LF (strip_noise text))).
  pose proof (join_map [SP] ls) as Ej.
  change (map Canonicalize [SP]) with [SP] in Ej. rewrite Ej.
  pose proof (replace_from_map ws_run [SP] exec_at_ws_run_map
                (join [SP] ls) 0) as Er.
  change (map Canonicalize [SP]) with [SP] in Er.
  unfold replace. rewrite Er. apply trim_map.
Qed.

(** * Further properties of the collector and the title loop *)

Lemma first_occurrences_app (l1 l2 : list jsstring) :
  first_occurrences (l1 ++ l2)
  = first_occurrences l1
    ++ filter (fun y => y ∉ l1) (first_occurrences l2).
Proof.
  induction l1 as [|x l1 IH]; simpl.
  - symmetry. apply filter_not_in_nil.
  - rewrite IH, filter_app. f_equal. f_equal.
    rewrite list_filter_filter. apply list_filter_iff. intros y.
    rewrite elem_of_cons. tauto.
Qed.

Lemma first_occurrences_elem_of l x : x ∈ first_occurrences l ↔ x ∈ l.
Proof.
  split; [apply first_occurrences_subset|apply first_occurrences_complete].
Qed.

Lemma filter_seen_nil (l : list jsstring) : filter (fun y => y ∉ l) l = [].
Proof.
  destruct (filter (fun y => y ∉ l) l) as [|x k] eqn:E; [reflexivity|].
  assert (Hx : x ∈ filter (fun y => y ∉ l) l) by (rewrite E; left).
  apply list_elem_of_filter in Hx as [Hn Hx]. contradiction.
Qed.

(** X8.  Selectors of a second list add, behind the texts found by the first
    list, only the texts that the first list did not find; a list that
    repeats its selectors finds what it finds without the repetition. *)
Theorem gatherTextFromSelectors_app
  (document : Document) (s1 s2 : list String.string) :
  (∃ r1 r2,
     gatherTextFromSelectors document s1 = Normal r1
     ∧ gatherTextFromSelectors document s2 = Normal r2
     ∧ gatherTextFromSelectors document (s1 ++ s2)
       = Normal (r1 ++ filter (fun y => y ∉ r1) r2))
  ∧ gatherTextFromSelectors document (s1 ++ s1)
    = gatherTextFromSelectors document s1.
Proof.
  assert (H : ∀ a b,
             gatherTextFromSelectors document (a ++ b)
             = Normal
                 (first_occurrences
                    (filter (fun t => 20 < length t) (candidates document a))
                  ++ filter
                       (fun y =>
                          y ∉ first_occurrences
                                (filter (fun t => 20 < length t)
                                        (candidates document a)))
                       (first_occurrences
                          (filter (fun t => 20 < length t)
                                  (candidates document b))))).
  { intros a b. rewrite gatherTextFromSelectors_spec. f_equal.
    unfold candidates. rewrite flat_map_app, filter_app.
    rewrite first_occurrences_app. f_equal.
    apply list_filter_iff. intros y.
    rewrite first_occurrences_elem_of. reflexivity. }
  split.
  - do 2 eexists. split; [apply gatherTextFromSelectors_spec|].
    split; [apply gatherTextFromSelectors_spec|]. apply H.
  - rewrite H, gatherTextFromSelectors_spec, filter_seen_nil, app_nil_r.
    reflexivity.
Qed.

Lemma trimStart_all_ws s : all_ws s = true -> trimStart s = [].
Proof.
  induction s as [|x s IH]; simpl; [reflexivity|].
  intros [-> Hs]%andb_true_iff. exact (IH Hs).
Qed.

(** X9.  The loop stops at the first selector whose first match has text, also
    when that text is whitespace only: the title is then empty, whatever the
    later selectors would find. *)
Theorem resolveTitle_blank_text_wins
  (document : Document) (s : String.string) (rest : list String.string)
  (t : jsstring) :
  title_text document s = Some t ->
  all_ws t = true ->
  resolveTitle document (s :: rest) [] = Normal [].
Proof.
  intros Ht Hws. rewrite resolveTitle_spec. simpl. rewrite Ht. simpl.
  unfold trim. rewrite (trimStart_all_ws _ Hws). reflexivity.
Qed.

Lemma resolveTitle_blank_text_wins_witness :
  resolveTitle page_blank_title ["#productTitle"; "h1"]%string []
  = Normal [].
Proof.
  exact (resolveTitle_blank_text_wins page_blank_title
           "#productTitle" ["h1"%string] (js "   ") eq_refl eq_refl).
Defined.


(** What the injected function returns as reviews. *)
Lemma injected_reviews document r :
  injected document = Normal r ->
  length (reviews r) ≤ 30
  ∧ Forall (fun t => 20 < length t) (reviews r)
  ∧ NoDup (reviews r).
Proof.
  unfold injected, injected_with.
  rewrite gatherTextFromSelectors_spec, resolveTitle_spec. simpl.
  intros [= <-]. simpl. split; [|split].
  - rewrite length_take. lia.
  - apply Forall_take, Forall_forall. intros t Ht.
    apply first_occurrences_subset, list_elem_of_filter in Ht. tauto.
  - eapply sublist_NoDup; [apply first_occurrences_NoDup|apply sublist_take].
Qed.

Lemma injected_page_one_review :
  injected page_one_review
  = Normal {| reviews := [js "Great battery life and build quality overall"];
              title := js "Wireless Mouse";
              url := js "https://shop.example/item/1" |}.
Proof.
  unfold injected, injected_with.
  rewrite gatherTextFromSelectors_spec, resolveTitle_spec.
  vm_compute. reflexivity.
Qed.
(** * The popup *)

Module PopupFacts.
Import Popup.

Lemma hidden_added (X : gset String.string) :
  "hidden"%string ∈ ({["hidden"%string]} ∪ X : gset String.string).
Proof. apply elem_of_union_l, elem_of_singleton. reflexivity. Qed.

Lemma hidden_removed (X : gset String.string) :
  "hidden"%string ∉ X ∖ {["hidden"%string]}.
Proof.
  rewrite elem_of_difference, elem_of_singleton. intros [_ H]. apply H.
  reflexivity.
Qed.

Lemma world_eta w :
  {| elements := elements w; requests := requests w |} = w.
Proof. destruct w; reflexivity. Qed.

Lemma classes_update id f w id' :
  (∀ el, classList (f el) = classList el) ->
  classes (snd (update id f w)) id' = classes w id'.
Proof.
  intros Hf. unfold classes. simpl. rewrite lookup_alter.
  case_decide as E; [subst id'|reflexivity].
  destruct (elements w !! id); simpl; [rewrite Hf|]; reflexivity.
Qed.

Lemma keeps_ret {A} (a : A) : keeps_classes (ret a).
Proof. intros w id. reflexivity. Qed.

Lemma keeps_throw {A} err : keeps_classes (@throw A err).
Proof. intros w id. reflexivity. Qed.

Lemma keeps_settled {A} (c : outcome A) : keeps_classes (settled c).
Proof. intros w id. reflexivity. Qed.

Lemma keeps_bind {A B} (c : M A) (k : A -> M B) :
  keeps_classes c -> (∀ a, keeps_classes (k a)) -> keeps_classes (bind c k).
Proof.
  intros Hc Hk w id. unfold bind. specialize (Hc w id).
  destruct (c w) as [[a|err] w']; simpl in *; [|exact Hc].
  rewrite (Hk a w' id). exact Hc.
Qed.

Lemma keeps_setText id t : keeps_classes (setText id t).
Proof. intros w id'. apply classes_update. reflexivity. Qed.

Lemma classes_hide id0 w id :
  classes (snd (hide id0 w)) id
  = if decide (id0 = id)
    then (fun X => {["hidden"%string]} ∪ X) <$> classes w id
    else classes w id.
Proof.
  unfold classes. simpl. rewrite lookup_alter.
  case_decide as E; [subst id|reflexivity].
  destruct (elements w !! id0); reflexivity.
Qed.

Lemma classes_show id0 w id :
  classes (snd (show id0 w)) id
  = if decide (id0 = id)
    then (fun X => X ∖ {["hidden"%string]}) <$> classes w id
    else classes w id.
Proof.
  unfold classes. simpl. rewrite lookup_alter.
  case_decide as E; [subst id|reflexivity].
  destruct (elements w !! id0); reflexivity.
Qed.

Lemma classes_setText id0 t w id :
  classes (snd (setText id0 t w)) id = classes w id.
Proof. apply keeps_setText. Qed.

Lemma classes_started w id :
  classes (started w) id
  = if decide (id = "loader"%string)
    then (fun X => X ∖ {["hidden"%string]}) <$> classes w id
    else if decide (id = "result"%string ∨ id = "error"%string)
         then (fun X => {["hidden"%string]} ∪ X) <$> classes w id
         else classes w id.
Proof.
  unfold started. rewrite classes_show, classes_hide, classes_hide.
  repeat case_decide; first [ reflexivity | exfalso; intuition congruence ].
Qed.

Lemma hidden_classes w id :
  hidden w id ↔ ∃ X, classes w id = Some X ∧ "hidden"%string ∈ X.
Proof.
  unfold hidden, classes. split.
  - intros (el & -> & H). eauto.
  - intros (X & E & H). destruct (elements w !! id) as [el|]; [|discriminate].
    injection E as <-. eauto.
Qed.

Lemma shown_classes w id :
  shown w id ↔ ∃ X, classes w id = Some X ∧ "hidden"%string ∉ X.
Proof.
  unfold shown, classes. split.
  - intros (el & -> & H). eauto.
  - intros (X & E & H). destruct (elements w !! id) as [el|]; [|discriminate].
    injection E as <-. eauto.
Qed.

Lemma shown_by_computation w id el :
  elements w !! id = Some el ->
  bool_decide ("hidden"%string ∉ classList el) = true ->
  shown w id.
Proof.
  intros E H. exists el. split; [exact E|].
  apply bool_decide_eq_true in H. exact H.
Qed.

Lemma is_Some_classes w id :
  is_Some (classes w id) ↔ is_Some (elements w !! id).
Proof. unfold classes. apply fmap_is_Some. Qed.

Lemma reported_lookup t w id :
  elements (snd (show "error"
                   (snd (setText "error" t (snd (hide "loader" w))))))
    !! id
  = reported t w id.
Proof.
  unfold reported. simpl. rewrite !lookup_alter.
  repeat case_decide; simplify_eq; try reflexivity.
  destruct (elements w !! "error"%string); reflexivity.
Qed.

Lemma reported_error t w (w' : world) :
  (∀ id, elements w' !! id = reported t w id) ->
  is_Some (elements w !! "error"%string) ->
  shown w' "error" ∧ content w' "error" = Some (text_content t).
Proof.
  intros H [el Hel]. unfold shown, content. rewrite (H "error"%string).
  unfold reported. rewrite decide_True by reflexivity. rewrite Hel.
  split; [|reflexivity].
  eexists. split; [reflexivity|]. apply hidden_removed.
Qed.

Lemma reported_loader t w (w' : world) :
  (∀ id, elements w' !! id = reported t w id) ->
  is_Some (elements w !! "loader"%string) ->
  hidden w' "loader".
Proof.
  intros H [el Hel]. unfold hidden. rewrite (H "loader"%string).
  unfold reported. rewrite decide_False by discriminate.
  rewrite decide_True by reflexivity. rewrite Hel.
  eexists. split; [reflexivity|]. apply hidden_added.
Qed.

Section Facts.
Context {Number : Type} (host : Host Number).

Lemma keeps_set_items id items : keeps_classes (set_items host id items).
Proof.
  intros w id'. unfold set_items.
  destruct (elements w !! id); [|reflexivity].
  apply classes_update. reflexivity.
Qed.

Lemma keeps_fill_list id entries placeholder :
  keeps_classes (fill_list host id entries placeholder).
Proof.
  apply keeps_bind; [apply keeps_set_items|]. intros _.
  destruct entries; apply keeps_set_items.
Qed.

Lemma keeps_renderResults data : keeps_classes (renderResults host data).
Proof.
  unfold renderResults. destruct (raw data) as [[|x t]|]; cbv zeta;
    repeat first [ apply keeps_setText | apply keeps_set_items
                 | apply keeps_fill_list
                 | apply keeps_bind; [|intros _] ].
Qed.

Lemma keeps_await {A} c (answer : outcome A) :
  undisturbed host -> keeps_classes (await host c answer).
Proof. intros H w id. unfold classes. simpl. apply H. Qed.

Lemma keeps_queryActiveTabAndScrape :
  undisturbed host -> keeps_classes (queryActiveTabAndScrape host).
Proof.
  intros H. apply keeps_bind; [apply keeps_await, H|]. intros tabs.
  destruct (head tabs); [|apply keeps_throw].
  apply keeps_bind; [apply keeps_await, H|]. intros results.
  destruct (head results ≫= result); [apply keeps_ret|apply keeps_throw].
Qed.

Lemma keeps_callBackend payload :
  undisturbed host -> keeps_classes (callBackend host payload).
Proof.
  intros H w id. unfold callBackend.
  set (w' := {| elements := elements w; requests := requests w ++ [payload] |}).
  change (classes w id) with (classes w' id).
  revert w' id. apply keeps_bind; [apply keeps_await, H|]. intros response.
  destruct (ok response); [apply keeps_settled|apply keeps_throw].
Qed.

(** ** Requests *)

Lemma quiet_ret {A} (a : A) : keeps_requests (ret a).
Proof. intros w. reflexivity. Qed.

Lemma quiet_throw {A} err : keeps_requests (@throw A err).
Proof. intros w. reflexivity. Qed.

Lemma quiet_await {A} c (answer : outcome A) :
  keeps_requests (await host c answer).
Proof. intros w. reflexivity. Qed.

Lemma quiet_update id f : keeps_requests (update id f).
Proof. intros w. reflexivity. Qed.

Lemma quiet_bind {A B} (c : M A) (k : A -> M B) :
  keeps_requests c -> (∀ a, keeps_requests (k a)) ->
  keeps_requests (bind c k).
Proof.
  intros Hc Hk w. unfold bind. specialize (Hc w).
  destruct (c w) as [[a|err] w']; simpl in *; [|exact Hc].
  rewrite (Hk a w'). exact Hc.
Qed.

Lemma quiet_set_items id items : keeps_requests (set_items host id items).
Proof.
  intros w. unfold set_items. destruct (elements w !! id); reflexivity.
Qed.

Lemma quiet_renderResults data : keeps_requests (renderResults host data).
Proof.
  unfold renderResults, fill_list.
  destruct (raw data) as [[|x t]|]; cbv zeta;
    repeat first [ apply quiet_update | apply quiet_set_items
                 | apply quiet_bind; [|intros _] ];
    destruct (pros data), (cons data);
    repeat first [ apply quiet_set_items | apply quiet_bind; [|intros _] ].
Qed.

Lemma quiet_queryActiveTabAndScrape :
  keeps_requests (queryActiveTabAndScrape host).
Proof.
  apply quiet_bind; [apply quiet_await|]. intros tabs.
  destruct (head tabs); [|apply quiet_throw].
  apply quiet_bind; [apply quiet_await|]. intros results.
  destruct (head results ≫= result); [apply quiet_ret|apply quiet_throw].
Qed.

(** ** The run, case by case *)

(** The answer of the scraping is that of the host, whatever the popup. *)
Lemma queryActiveTabAndScrape_outcome w w0 :
  fst (queryActiveTabAndScrape host w)
  = fst (queryActiveTabAndScrape host w0).
Proof.
  unfold queryActiveTabAndScrape, bind, await, throw, ret.
  destruct (tabs_query host) as [tabs|err]; [|reflexivity].
  destruct (head tabs) as [tab|]; [|reflexivity].
  destruct (executeScript host tab) as [results|err]; [|reflexivity].
  destruct (head results ≫= result); reflexivity.
Qed.

Lemma queryActiveTabAndScrape_alone w :
  (∀ c dom, meanwhile host c dom = dom) ->
  snd (queryActiveTabAndScrape host w) = w.
Proof.
  intros H. unfold queryActiveTabAndScrape, bind, await, throw, ret.
  rewrite !H.
  destruct (tabs_query host) as [tabs|err]; [|apply world_eta].
  destruct (head tabs) as [tab|]; [|apply world_eta].
  simpl. rewrite !H.
  destruct (executeScript host tab) as [results|err]; [|apply world_eta].
  destruct (head results ≫= result); apply world_eta.
Qed.

Lemma or_default_id t : or_default (Some t) [] = t.
Proof. destruct t; reflexivity. Qed.

Lemma attempt_unfold w :
  attempt host w
  = match queryActiveTabAndScrape host (started w) with
    | (Raise err, w2) => (Raise err, w2)
    | (Return scraped, w2) =>
        match reviews scraped with
        | [] => (Raise (new_Error (js no_reviews_message)), w2)
        | _ =>
            match callBackend host scraped
                    (snd (setText "productInfo"
                            (or_default (Some (title scraped))
                                        (js "Product Page")) w2)) with
            | (Raise err, w3) => (Raise err, w3)
            | (Return data, w3) =>
                match renderResults host data w3 with
                | (Raise err, w4) => (Raise err, w4)
                | (Return _, w4) =>
                    (Return tt, snd (show "result" (snd (hide "loader" w4))))
                end
            end
        end
    end.
Proof.
  unfold attempt.
  change ((hide "error" ;;; hide "result" ;;; show "loader" ;;; ?rest) w)
    with (rest (started w)).
  set (w1 := started w).
  unfold bind at 1.
  destruct (queryActiveTabAndScrape host w1) as [[scraped|err] w2];
    [|reflexivity].
  assert (Hp : {| reviews := reviews scraped;
                  title := or_default (Some (title scraped)) [];
                  url := or_default (Some (url scraped)) [] |} = scraped).
  { rewrite !or_default_id. destruct scraped; reflexivity. }
  rewrite Hp. unfold bind at 1.
  destruct (reviews scraped) as [|r rs]; [reflexivity|].
  unfold ret at 1. unfold bind at 1.
  change (setText "productInfo" ?t w2)
    with (Return tt, snd (setText "productInfo" t w2)).
  cbv iota. unfold bind at 1.
  destruct (callBackend host scraped _) as [[data|err] w3]; [|reflexivity].
  unfold bind at 1.
  destruct (renderResults host data w3) as [[[]|err] w4]; reflexivity.
Qed.

Lemma callBackend_world payload w :
  snd (callBackend host payload w)
  = {| elements := meanwhile host Fetch (elements w);
       requests := requests w ++ [payload] |}.
Proof.
  unfold callBackend, bind, await, throw, settled. simpl.
  destruct (fetch host payload) as [response|err]; [|reflexivity].
  destruct (ok response); [|reflexivity].
  destruct (json response); reflexivity.
Qed.

Lemma callBackend_refused payload w response :
  fetch host payload = Return response ->
  ok response = false ->
  fst (callBackend host payload w)
  = Raise (new_Error (js "Backend request failed: "
                      ++ decimal (status response) ++ [SP]
                      ++ match text response with
                         | Return t => t
                         | Raise _ => []
                         end)).
Proof.
  intros Hf Hok. unfold callBackend, bind, await. rewrite Hf.
  cbv beta iota. rewrite Hok. reflexivity.
Qed.

(** The [try] block returns only through its last two statements. *)
Lemma attempt_returns w :
  fst (attempt host w) = Return tt ->
  ∃ w4, snd (attempt host w)
        = snd (show "result" (snd (hide "loader" w4))).
Proof.
  rewrite attempt_unfold.
  destruct (queryActiveTabAndScrape host (started w))
    as [[scraped|err] w2]; [|discriminate].
  destruct (reviews scraped); [discriminate|].
  destruct (callBackend host scraped _) as [[data|err] w3]; [|discriminate].
  destruct (renderResults host data w3) as [[[]|err] w4]; [|discriminate].
  intros _. exists w4. reflexivity.
Qed.

(** Under a host that leaves the class lists alone, the [try] block changes
    them by its own steps only. *)
Lemma attempt_classes w id :
  undisturbed host ->
  classes (snd (attempt host w)) id
  = match fst (attempt host w) with
    | Return _ =>
        classes (snd (show "result" (snd (hide "loader" (started w))))) id
    | Raise _ => classes (started w) id
    end.
Proof.
  intros H. rewrite attempt_unfold.
  pose proof (keeps_queryActiveTabAndScrape H (started w)) as Hq.
  destruct (queryActiveTabAndScrape host (started w))
    as [[scraped|err] w2]; cbn [fst snd] in Hq; [|apply Hq].
  destruct (reviews scraped); [apply Hq|].
  pose proof (keeps_callBackend scraped H
                (snd (setText "productInfo"
                        (or_default (Some (title scraped))
                                    (js "Product Page")) w2))) as Hc.
  destruct (callBackend host scraped _) as [[data|err] w3]; cbn [fst snd] in Hc.
  2:{ cbn [fst snd]. rewrite Hc, classes_setText. apply Hq. }
  pose proof (keeps_renderResults data w3) as Hr.
  destruct (renderResults host data w3) as [[[]|err] w4]; cbn [fst snd] in Hr.
  2:{ cbn [fst snd]. rewrite Hr, Hc, classes_setText. apply Hq. }
  cbn [fst snd].
  rewrite !classes_show, !classes_hide, Hr, Hc, classes_setText, Hq.
  reflexivity.
Qed.

(** ** The [catch] block *)

Lemma error_text_cases err :
  (∃ v, err = Nullish v) ∨ (∃ t, error_text host err = ret t).
Proof.
  destruct err as [v|s|n [|c m]]; [left|right..]; eexists; reflexivity.
Qed.

Lemma recover_nullish v w :
  recover host (Nullish v) w
  = (Raise (TypeError host v "message"), snd (hide "loader" w)).
Proof. reflexivity. Qed.

Lemma recover_reports err t w :
  error_text host err = ret t ->
  recover host err w
  = (Return tt,
     snd (show "error" (snd (setText "error" t (snd (hide "loader" w)))))).
Proof. intros E. unfold recover. rewrite E. reflexivity. Qed.

Lemma recover_requests err : keeps_requests (recover host err).
Proof.
  intros w. destruct (error_text_cases err) as [[v ->]|[t E]].
  - reflexivity.
  - rewrite (recover_reports _ _ _ E). reflexivity.
Qed.

Lemma recover_loader err w el :
  elements (snd (recover host err w)) !! "loader"%string = Some el ->
  "hidden"%string ∈ classList el.
Proof.
  destruct (error_text_cases err) as [[v ->]|[t E]].
  - rewrite recover_nullish. simpl. rewrite lookup_alter_eq.
    destruct (elements w !! "loader"%string); [|discriminate].
    intros [= <-]. apply hidden_added.
  - rewrite (recover_reports _ _ _ E). cbn [snd].
    rewrite reported_lookup. unfold reported.
    rewrite decide_False by discriminate.
    rewrite decide_True by reflexivity.
    destruct (elements w !! "loader"%string); [|discriminate].
    intros [= <-]. apply hidden_added.
Qed.

Lemma recover_classes err w id :
  classes (snd (recover host err w)) id
  = match fst (recover host err w) with
    | Return _ => classes (snd (show "error" (snd (hide "loader" w)))) id
    | Raise _ => classes (snd (hide "loader" w)) id
    end.
Proof.
  destruct (error_text_cases err) as [[v ->]|[t E]].
  - reflexivity.
  - rewrite (recover_reports _ _ _ E). cbn [fst snd].
    rewrite !classes_show, classes_setText. reflexivity.
Qed.

(** ** How a run ends *)

Lemma summarize_throws w e :
  fst (summarize host w) = Raise e
  ↔ ∃ v, fst (attempt host w) = Raise (Nullish v)
         ∧ e = TypeError host v "message".
Proof.
  unfold summarize, try_catch.
  destruct (attempt host w) as [[[]|err] wa]; simpl.
  - split; [discriminate|]. intros (v & [=] & _).
  - destruct (error_text_cases err) as [[v ->]|[t E]].
    + rewrite recover_nullish. simpl. split.
      * intros [= <-]. eauto.
      * intros (v' & [= <-] & ->). reflexivity.
    + rewrite (recover_reports _ _ _ E). simpl.
      split; [discriminate|].
      intros (v & [= ->] & _).
      apply (f_equal (fun c => fst (c wa))) in E. discriminate.
Qed.

Lemma summarize_loader w el :
  elements (snd (summarize host w)) !! "loader"%string = Some el ->
  "hidden"%string ∈ classList el.
Proof.
  unfold summarize, try_catch.
  pose proof (attempt_returns w) as Hr.
  destruct (attempt host w) as [[[]|err] wa]; simpl in *.
  - destruct (Hr eq_refl) as [w4 ->]. simpl.
    rewrite lookup_alter_ne by discriminate. rewrite lookup_alter_eq.
    destruct (elements w4 !! "loader"%string); [|discriminate].
    intros [= <-]. apply hidden_added.
  - apply recover_loader.
Qed.

Lemma summarize_returns w :
  fst (summarize host w) = Return tt ->
  (fst (attempt host w) = Return tt
   ∧ ∀ el, elements (snd (summarize host w)) !! "result"%string = Some el ->
           "hidden"%string ∉ classList el)
  ∨ (∃ err, fst (attempt host w) = Raise err
            ∧ ∀ el, elements (snd (summarize host w)) !! "error"%string
                    = Some el ->
                    "hidden"%string ∉ classList el).
Proof.
  unfold summarize, try_catch.
  pose proof (attempt_returns w) as Hr.
  destruct (attempt host w) as [[[]|err] wa]; simpl in *.
  - intros _. left. split; [reflexivity|].
    destruct (Hr eq_refl) as [w4 ->]. simpl. intros el.
    rewrite lookup_alter_eq.
    destruct (alter with_hidden "loader"%string (elements w4)
                !! "result"%string); [|discriminate].
    intros [= <-]. apply hidden_removed.
  - intros Hret. right. exists err. split; [reflexivity|].
    destruct (error_text_cases err) as [[v ->]|[t E]]; [discriminate|].
    rewrite (recover_reports _ _ _ E). cbn [snd]. intros el.
    rewrite reported_lookup. unfold reported.
    rewrite decide_True by reflexivity.
    destruct (elements wa !! "error"%string); [|discriminate].
    intros [= <-]. apply hidden_removed.
Qed.

Lemma summarize_classes w id :
  undisturbed host ->
  classes (snd (summarize host w)) id
  = match fst (summarize host w), fst (attempt host w) with
    | Return _, Return _ =>
        classes (snd (show "result" (snd (hide "loader" (started w))))) id
    | Return _, Raise _ =>
        classes (snd (show "error" (snd (hide "loader" (started w))))) id
    | Raise _, _ => classes (snd (hide "loader" (started w))) id
    end.
Proof.
  intros H. pose proof (fun id => attempt_classes w id H) as Ha.
  unfold summarize, try_catch.
  destruct (attempt host w) as [[[]|err] wa]; cbn [fst snd] in *.
  - apply Ha.
  - rewrite recover_classes.
    destruct (fst (recover host err wa)).
    + rewrite !classes_show, !classes_hide, !Ha. reflexivity.
    + rewrite !classes_hide, !Ha. reflexivity.
Qed.

Ltac panel_classes H :=
  rewrite ?classes_show, ?classes_hide, classes_started, H; simpl;
  eexists; split; [reflexivity|];
  first [apply hidden_added | apply hidden_removed].

Lemma summarize_alone w :
  undisturbed host ->
  is_Some (elements w !! "loader"%string) ->
  is_Some (elements w !! "result"%string) ->
  is_Some (elements w !! "error"%string) ->
  hidden (snd (summarize host w)) "loader"
  ∧ match fst (summarize host w) with
    | Return _ =>
        (shown (snd (summarize host w)) "result"
         ∧ hidden (snd (summarize host w)) "error")
        ∨ (hidden (snd (summarize host w)) "result"
           ∧ shown (snd (summarize host w)) "error")
    | Raise _ =>
        hidden (snd (summarize host w)) "result"
        ∧ hidden (snd (summarize host w)) "error"
    end.
Proof.
  intros H Hl Hr He.
  apply is_Some_classes in Hl as [L HL].
  apply is_Some_classes in Hr as [R HR].
  apply is_Some_classes in He as [E HE].
  destruct (fst (summarize host w)) eqn:Es;
    [destruct (fst (attempt host w)) eqn:Ea|];
    rewrite ?hidden_classes, ?shown_classes.
  - split; [|left; split]; rewrite (summarize_classes _ _ H), Es, Ea.
    + panel_classes HL.
    + panel_classes HR.
    + panel_classes HE.
  - split; [|right; split]; rewrite (summarize_classes _ _ H), Es, Ea.
    + panel_classes HL.
    + panel_classes HR.
    + panel_classes HE.
  - split; [|split]; rewrite (summarize_classes _ _ H), Es.
    + panel_classes HL.
    + panel_classes HR.
    + panel_classes HE.
Qed.

(** X11.  A run of [summarize] ends with the loader hidden, whatever the
    other handlers do to the popup while it waits.  It throws exactly when
    its [try] block has thrown [undefined] or [null], on which the [catch]
    block fails to read a message; when it returns, the panel of its
    outcome is not hidden: the result panel when the [try] block has
    returned, the error panel otherwise.  If no class list changes while
    the run waits, a popup with the three panels ends with exactly one of
    result and error shown when the run returns, and with neither when it
    throws.  When a second run is answered while the first waits for a
    refusal, both panels end up shown. *)
Theorem summarize_settles w :
  (∀ el, elements (snd (summarize host w)) !! "loader"%string = Some el ->
         "hidden"%string ∈ classList el)
  ∧ (∀ e, fst (summarize host w) = Raise e
          ↔ ∃ v, fst (attempt host w) = Raise (Nullish v)
                 ∧ e = TypeError host v "message")
  ∧ (fst (summarize host w) = Return tt ->
     (fst (attempt host w) = Return tt
      ∧ ∀ el, elements (snd (summarize host w)) !! "result"%string
              = Some el ->
              "hidden"%string ∉ classList el)
     ∨ (∃ err, fst (attempt host w) = Raise err
               ∧ ∀ el, elements (snd (summarize host w)) !! "error"%string
                       = Some el ->
                       "hidden"%string ∉ classList el))
  ∧ (undisturbed host ->
     is_Some (elements w !! "loader"%string) ->
     is_Some (elements w !! "result"%string) ->
     is_Some (elements w !! "error"%string) ->
     hidden (snd (summarize host w)) "loader"
     ∧ match fst (summarize host w) with
       | Return _ =>
           (shown (snd (summarize host w)) "result"
            ∧ hidden (snd (summarize host w)) "error")
           ∨ (hidden (snd (summarize host w)) "result"
              ∧ shown (snd (summarize host w)) "error")
       | Raise _ =>
           hidden (snd (summarize host w)) "result"
           ∧ hidden (snd (summarize host w)) "error"
       end)
  ∧ (fst (summarize overlapped_host demo_world) = Return tt
     ∧ shown (snd (summarize overlapped_host demo_world)) "result"
     ∧ shown (snd (summarize overlapped_host demo_world)) "error").
Proof.
  split; [apply summarize_loader|].
  split; [apply summarize_throws|].
  split; [apply summarize_returns|].
  split; [apply summarize_alone|].
  split; [reflexivity|].
  split; eapply shown_by_computation; vm_compute; reflexivity.
Qed.

(** ** Errors before and at the request *)

Lemma started_elsewhere w id :
  id ≠ "error"%string -> id ≠ "result"%string -> id ≠ "loader"%string ->
  elements (started w) !! id = elements w !! id.
Proof.
  intros. unfold started. simpl. rewrite !lookup_alter.
  repeat case_decide; simplify_eq; reflexivity.
Qed.

Lemma started_result w :
  elements (started w) !! "result"%string
  = with_hidden <$> elements w !! "result"%string.
Proof.
  unfold started. simpl. rewrite !lookup_alter.
  repeat case_decide; simplify_eq; reflexivity.
Qed.

Lemma reported_elsewhere t w id :
  id ≠ "error"%string -> id ≠ "loader"%string ->
  reported t w id = elements w !! id.
Proof.
  intros. unfold reported. rewrite !decide_False by assumption. reflexivity.
Qed.

Lemma hidden_with_hidden (w' : world) id (o : option HTMLElement) :
  elements w' !! id = with_hidden <$> o -> is_Some o -> hidden w' id.
Proof.
  intros E [el ->]. exists (with_hidden el). split; [exact E|].
  apply hidden_added.
Qed.

Lemma attempt_nothing_to_send w err :
  fst (queryActiveTabAndScrape host w) = Raise err
  ∨ (∃ scraped, fst (queryActiveTabAndScrape host w) = Return scraped
                ∧ reviews scraped = []
                ∧ err = new_Error (js no_reviews_message)) ->
  attempt host w
  = (Raise err, snd (queryActiveTabAndScrape host (started w))).
Proof.
  intros H. rewrite (queryActiveTabAndScrape_outcome w (started w)) in H.
  rewrite attempt_unfold.
  destruct (queryActiveTabAndScrape host (started w))
    as [[scraped|e] w2]; cbn [fst snd] in *.
  - destruct H as [[=]|(s & [= <-] & Hr & ->)]. rewrite Hr. reflexivity.
  - destruct H as [[= ->]|(s & [=] & _)]. reflexivity.
Qed.

(** X12.  When the scraping throws, or finds no review, a run whose error
    has a text sends nothing to the backend and returns.  The popup is then
    as the wait for the scraping left it, but for the error panel, which
    holds the text of the error (for no review, the message about missing
    reviews) and is not hidden, and the loader, which is hidden.  When
    nothing else runs in the meantime, the result panel is hidden and every
    other element is as it was before the run. *)
Theorem summarize_nothing_to_send w err t :
  fst (queryActiveTabAndScrape host w) = Raise err
  ∨ (∃ scraped, fst (queryActiveTabAndScrape host w) = Return scraped
                ∧ reviews scraped = []
                ∧ err = new_Error (js no_reviews_message)) ->
  error_text host err = ret t ->
  let w2 := snd (queryActiveTabAndScrape host (started w)) in
  let w' := snd (summarize host w) in
  fst (summarize host w) = Return tt
  ∧ requests w' = requests w
  ∧ (∀ id, elements w' !! id = reported t w2 id)
  ∧ (is_Some (elements w2 !! "error"%string) ->
     shown w' "error" ∧ content w' "error" = Some (text_content t))
  ∧ (is_Some (elements w2 !! "loader"%string) -> hidden w' "loader")
  ∧ (alone host ->
     (is_Some (elements w !! "result"%string) -> hidden w' "result")
     ∧ ∀ id, id ≠ "error"%string -> id ≠ "loader"%string ->
             id ≠ "result"%string ->
             elements w' !! id = elements w !! id).
Proof.
  intros H E w2 w'.
  assert (Hs : summarize host w
               = (Return tt,
                  snd (show "error"
                         (snd (setText "error" t
                                 (snd (hide "loader" w2))))))).
  { unfold summarize, try_catch. rewrite (attempt_nothing_to_send _ _ H).
    apply recover_reports, E. }
  assert (Hel : ∀ id, elements w' !! id = reported t w2 id).
  { intros id. unfold w'. rewrite Hs. cbn [snd]. apply reported_lookup. }
  split; [rewrite Hs; reflexivity|].
  split.
  { unfold w'. rewrite Hs. cbn [snd].
    change (requests w2 = requests w). unfold w2.
    rewrite quiet_queryActiveTabAndScrape. reflexivity. }
  split; [exact Hel|].
  split; [apply (reported_error t w2 w' Hel)|].
  split; [apply (reported_loader t w2 w' Hel)|].
  intros Ha.
  assert (E2 : w2 = started w)
    by apply queryActiveTabAndScrape_alone, Ha.
  split.
  - apply hidden_with_hidden.
    rewrite Hel, reported_elsewhere, E2 by discriminate.
    apply started_result.
  - intros id H1 H2 H3.
    rewrite Hel, reported_elsewhere, E2 by assumption.
    apply started_elsewhere; assumption.
Qed.

Lemma summarize_requests_attempt w :
  requests (snd (summarize host w)) = requests (snd (attempt host w)).
Proof.
  unfold summarize, try_catch.
  destruct (attempt host w) as [[[]|err] wa]; [reflexivity|].
  apply recover_requests.
Qed.

Lemma summarize_requests w :
  requests (snd (summarize host w)) = requests w
  ∨ ∃ scraped,
      fst (queryActiveTabAndScrape host w) = Return scraped
      ∧ reviews scraped ≠ []
      ∧ requests (snd (summarize host w)) = requests w ++ [scraped].
Proof.
  rewrite summarize_requests_attempt, attempt_unfold.
  rewrite (queryActiveTabAndScrape_outcome w (started w)).
  pose proof (quiet_queryActiveTabAndScrape (started w)) as Hq.
  change (requests (started w)) with (requests w) in Hq.
  destruct (queryActiveTabAndScrape host (started w))
    as [[scraped|err] w2]; cbn [fst snd] in *; [|left; exact Hq].
  destruct (reviews scraped) as [|r rs] eqn:Er; [left; exact Hq|].
  right. exists scraped. split; [reflexivity|].
  split; [rewrite Er; discriminate|].
  pose proof (callBackend_world scraped
                (snd (setText "productInfo"
                        (or_default (Some (title scraped))
                                    (js "Product Page")) w2)))
    as Hc.
  destruct (callBackend host scraped _) as [[data|err] w3];
    cbn [fst snd] in Hc; subst w3; [|cbn [snd requests]; rewrite <- Hq;
                                     reflexivity].
  pose proof (quiet_renderResults data
                {| elements :=
                     meanwhile host Fetch
                       (elements
                          (snd (setText "productInfo"
                                  (or_default (Some (title scraped))
                                              (js "Product Page")) w2)));
                   requests :=
                     requests
                       (snd (setText "productInfo"
                               (or_default (Some (title scraped))
                                           (js "Product Page")) w2))
                     ++ [scraped] |}) as Hr.
  destruct (renderResults host data _) as [[[]|err] w4];
    cbn [fst snd requests] in *.
  - change (requests w4 = requests w ++ [scraped]).
    rewrite Hr, <- Hq. reflexivity.
  - rewrite Hr, <- Hq. reflexivity.
Qed.

(** X13.  One run sends at most one request, only when reviews were scraped, and
    sends what was scraped as it is. *)
Theorem summarize_sends_what_was_scraped w :
  requests (snd (summarize host w)) = requests w
  ∨ ∃ scraped,
      fst (queryActiveTabAndScrape host w) = Return scraped
      ∧ reviews scraped ≠ []
      ∧ requests (snd (summarize host w)) = requests w ++ [scraped].
Proof. apply summarize_requests. Qed.

(** X14.  When the page answers with what the injected function returns on it,
    every request of the run carries between 1 and 30 reviews, each longer
    than 20 code units and no two the same. *)
Theorem summarize_request_is_bounded w document scraped :
  fst (queryActiveTabAndScrape host w) = Return scraped ->
  injected document = Normal scraped ->
  ∀ p, p ∈ requests (snd (summarize host w)) ->
       p ∈ requests w
       ∨ (p = scraped
          ∧ 0 < length (reviews p) ≤ 30
          ∧ Forall (fun t => 20 < length t) (reviews p)
          ∧ NoDup (reviews p)).
Proof.
  intros Hq Hinj p Hp.
  destruct (summarize_requests w)
    as [E|(scraped' & Hq' & Hne & E)]; rewrite E in Hp; [left; exact Hp|].
  apply elem_of_app in Hp as [Hp|Hp]; [left; exact Hp|].
  apply list_elem_of_singleton in Hp. subst p. right.
  assert (scraped' = scraped) as -> by congruence.
  destruct (injected_reviews _ _ Hinj) as (Hlen & Hlong & Hnd).
  repeat split; auto.
  destruct (reviews scraped); [contradiction|simpl; lia].
Qed.

Lemma attempt_refused w scraped response :
  fst (queryActiveTabAndScrape host w) = Return scraped ->
  reviews scraped ≠ [] ->
  fetch host scraped = Return response ->
  ok response = false ->
  attempt host w
  = (Raise (new_Error (js "Backend request failed: "
                       ++ decimal (status response) ++ [SP]
                       ++ match text response with
                          | Return t => t
                          | Raise _ => []
                          end)),
     {| elements :=
          meanwhile host Fetch
            (alter (with_text (or_default (Some (title scraped))
                                          (js "Product Page")))
                   "productInfo"%string
                   (elements
                      (snd (queryActiveTabAndScrape host (started w)))));
        requests := requests w ++ [scraped] |}).
Proof.
  intros Hq Hne Hf Hok.
  rewrite (queryActiveTabAndScrape_outcome w (started w)) in Hq.
  rewrite attempt_unfold.
  pose proof (quiet_queryActiveTabAndScrape (started w)) as Hr.
  change (requests (started w)) with (requests w) in Hr.
  destruct (queryActiveTabAndScrape host (started w))
    as [[s|e] w2]; cbn [fst snd] in *; [|discriminate].
  injection Hq as ->.
  destruct (reviews scraped) as [|r rs]; [contradiction|].
  pose proof (callBackend_world scraped
                (snd (setText "productInfo"
                        (or_default (Some (title scraped))
                                    (js "Product Page")) w2)))
    as Hw.
  pose proof (callBackend_refused scraped
                (snd (setText "productInfo"
                        (or_default (Some (title scraped))
                                    (js "Product Page")) w2))
                response Hf Hok) as Ho.
  destruct (callBackend host scraped _) as [o w3]; cbn [fst snd] in *.
  subst o w3. cbn [snd setText update elements requests]. rewrite Hr.
  reflexivity.
Qed.

(** X15.  When the backend answers with a status that is not a success, the
    request has been sent and the run returns.  The popup is then as the
    wait for the backend left it, but for the error panel, which holds the
    status and the body of the answer and is not hidden, and the loader,
    which is hidden; before that wait the run had written the title of the
    product and nothing else, so that nothing of a result is rendered.
    When nothing else runs in the meantime, the result panel is hidden and
    every element but the three panels and the title is as it was before
    the run. *)
Theorem summarize_backend_refusal w scraped response :
  fst (queryActiveTabAndScrape host w) = Return scraped ->
  reviews scraped ≠ [] ->
  fetch host scraped = Return response ->
  ok response = false ->
  let t := js "Backend request failed: "
           ++ decimal (status response) ++ [SP]
           ++ match text response with
              | Return t => t
              | Raise _ => []
              end in
  let w3 :=
    {| elements :=
         meanwhile host Fetch
           (alter (with_text (or_default (Some (title scraped))
                                         (js "Product Page")))
                  "productInfo"%string
                  (elements
                     (snd (queryActiveTabAndScrape host (started w)))));
       requests := requests w ++ [scraped] |} in
  let w' := snd (summarize host w) in
  fst (summarize host w) = Return tt
  ∧ requests w' = requests w ++ [scraped]
  ∧ (∀ id, elements w' !! id = reported t w3 id)
  ∧ (is_Some (elements w3 !! "error"%string) ->
     shown w' "error" ∧ content w' "error" = Some [Text t])
  ∧ (is_Some (elements w3 !! "loader"%string) -> hidden w' "loader")
  ∧ (alone host ->
     (is_Some (elements w !! "result"%string) -> hidden w' "result")
     ∧ ∀ id, id ≠ "error"%string -> id ≠ "loader"%string ->
             id ≠ "result"%string -> id ≠ "productInfo"%string ->
             elements w' !! id = elements w !! id).
Proof.
  intros Hq Hne Hf Hok t w3 w'.
  assert (Hs : summarize host w
               = (Return tt,
                  snd (show "error"
                         (snd (setText "error" t
                                 (snd (hide "loader" w3))))))).
  { unfold summarize, try_catch.
    rewrite (attempt_refused _ _ _ Hq Hne Hf Hok).
    apply recover_reports. reflexivity. }
  assert (Hel : ∀ id, elements w' !! id = reported t w3 id).
  { intros id. unfold w'. rewrite Hs. cbn [snd]. apply reported_lookup. }
  split; [rewrite Hs; reflexivity|].
  split; [unfold w'; rewrite Hs; reflexivity|].
  split; [exact Hel|].
  split; [apply (reported_error t w3 w' Hel)|].
  split; [apply (reported_loader t w3 w' Hel)|].
  intros Ha.
  assert (E3 : ∀ id, id ≠ "productInfo"%string ->
                     elements w3 !! id = elements (started w) !! id).
  { intros id Hid. unfold w3. cbn [elements].
    rewrite Ha, lookup_alter_ne by congruence.
    rewrite (queryActiveTabAndScrape_alone _ Ha). reflexivity. }
  split.
  - apply hidden_with_hidden.
    rewrite Hel, reported_elsewhere, E3 by discriminate.
    apply started_result.
  - intros id H1 H2 H3 H4.
    rewrite Hel, reported_elsewhere, E3 by assumption.
    apply started_elsewhere; assumption.
Qed.

(** ** The two lists *)

Lemma setText_elsewhere id t w id' :
  id ≠ id' ->
  elements (snd (setText id t w)) !! id' = elements w !! id'.
Proof. intros H. simpl. apply lookup_alter_ne, H. Qed.

Lemma set_items_run id items w :
  match elements w !! id with
  | Some _ =>
      ∃ w', set_items host id items w = (Return tt, w')
            ∧ content w' id = Some items
            ∧ (∀ id', id ≠ id' -> elements w' !! id' = elements w !! id')
  | None => set_items host id items w = (Raise (null_property host), w)
  end.
Proof.
  unfold set_items. destruct (elements w !! id) as [el|] eqn:E;
    [|reflexivity].
  eexists. split; [reflexivity|]. split.
  - unfold content. simpl. rewrite lookup_alter_eq, E. reflexivity.
  - intros id' H. simpl. apply lookup_alter_ne, H.
Qed.

Lemma fill_list_run id entries placeholder w :
  match elements w !! id with
  | Some _ =>
      ∃ w', fill_list host id entries placeholder w = (Return tt, w')
            ∧ content w' id = Some (list_items entries placeholder)
            ∧ (∀ id', id ≠ id' -> elements w' !! id' = elements w !! id')
  | None =>
      fill_list host id entries placeholder w
      = (Raise (null_property host), w)
  end.
Proof.
  unfold fill_list, bind. pose proof (set_items_run id [] w) as H1.
  destruct (elements w !! id) as [el|] eqn:E; [|rewrite H1; reflexivity].
  destruct H1 as (w1 & -> & Hc1 & He1).
  assert (Hx : is_Some (elements w1 !! id)).
  { unfold content in Hc1. destruct (elements w1 !! id); [eauto|discriminate]. }
  assert (H2 : ∀ items,
             ∃ w', set_items host id items w1 = (Return tt, w')
                   ∧ content w' id = Some items
                   ∧ (∀ id', id ≠ id' ->
                             elements w' !! id' = elements w !! id')).
  { intros items. pose proof (set_items_run id items w1) as H2.
    destruct Hx as [el1 Hx]. rewrite Hx in H2.
    destruct H2 as (w2 & -> & Hc2 & He2). exists w2.
    split; [reflexivity|]. split; [exact Hc2|].
    intros id' H. rewrite He2, He1 by exact H. reflexivity. }
  destruct entries as [|e es]; apply H2.
Qed.

(** X16.  With structured data [renderResults] needs both list elements; it then
    returns with each list showing one item for each entry, in their order,
    or the one placeholder item when there is no entry, and never an empty
    list.  Where a list element is missing it throws the type error of the
    host. *)
Theorem renderResults_lists data w :
  match raw data with Some (_ :: _) => False | _ => True end ->
  (is_Some (elements w !! "prosList") ->
   is_Some (elements w !! "consList") ->
   ∃ w', renderResults host data w = (Return tt, w')
         ∧ content w' "prosList"
           = Some (list_items (pros data) (js "No clear pros detected."))
         ∧ content w' "consList"
           = Some (list_items (cons data) (js "No clear cons detected."))
         ∧ list_items (pros data) (js "No clear pros detected.") ≠ []
         ∧ list_items (cons data) (js "No clear cons detected.") ≠ [])
  ∧ (elements w !! "prosList" = None ∨ elements w !! "consList" = None ->
     fst (renderResults host data w) = Raise (null_property host)).
Proof.
  intros Hraw.
  assert (Hne : ∀ entries ph, list_items entries ph ≠ []).
  { intros [|e es] ph; discriminate. }
  unfold renderResults.
  destruct (raw data) as [[|x t]|]; try contradiction; cbv zeta.
  all: match goal with
       | |- context [bind (setText "oneLine" ?a)
                      (fun _ => bind (setText "sentimentBadge" ?b)
                         (fun _ => bind (setText "scoreBadge" ?c) ?k))] =>
           set (w3 := snd (setText "scoreBadge" c
                             (snd (setText "sentimentBadge" b
                                     (snd (setText "oneLine" a w))))));
           change ((bind (setText "oneLine" a)
                      (fun _ => bind (setText "sentimentBadge" b)
                         (fun _ => bind (setText "scoreBadge" c) k))) w)
             with (k tt w3)
       end.
  all: assert (H3 : ∀ id, id ≠ "oneLine"%string ->
                          id ≠ "sentimentBadge"%string ->
                          id ≠ "scoreBadge"%string ->
                          elements w3 !! id = elements w !! id)
         by (intros id ? ? ?; unfold w3;
             rewrite !setText_elsewhere by congruence; reflexivity).
  all: cbv beta; unfold bind;
    pose proof (fill_list_run "prosList" (pros data)
                  (js "No clear pros detected.") w3) as Hp;
    rewrite (H3 "prosList"%string) in Hp by discriminate.
  all: split.
  all: try (intros [el Hel] [el' Hel']; rewrite Hel in Hp;
            destruct Hp as (w4 & -> & Hc4 & He4);
            pose proof (fill_list_run "consList" (cons data)
                          (js "No clear cons detected.") w4) as Hc;
            rewrite He4, (H3 "consList"%string), Hel' in Hc
              by discriminate;
            destruct Hc as (w5 & -> & Hc5 & He5);
            exists w5; split; [reflexivity|];
            split; [unfold content in *; rewrite He5 by discriminate;
                    exact Hc4|];
            split; [exact Hc5|]; split; apply Hne).
  all: intros [Hn|Hn].
  all: try (rewrite Hn in Hp; rewrite Hp; reflexivity).
  all: destruct (elements w !! "prosList") as [el|] eqn:Hel;
    [|rewrite Hp; reflexivity];
    destruct Hp as (w4 & -> & Hc4 & He4);
    pose proof (fill_list_run "consList" (cons data)
                  (js "No clear cons detected.") w4) as Hc;
    rewrite He4, (H3 "consList"%string), Hn in Hc by discriminate;
    rewrite Hc; reflexivity.
Qed.
End Facts.

Lemma demo_world_has id :
  In id ["error"; "result"; "loader"; "prosList"; "consList"]%string ->
  is_Some (elements demo_world !! id).
Proof.
  simpl. intros [<-|[<-|[<-|[<-|[<-|[]]]]]]; eexists; vm_compute;
    reflexivity.
Qed.


Lemma demo_host_alone found : alone (demo_host found).
Proof. intros c dom. reflexivity. Qed.

Lemma demo_host_undisturbed found : undisturbed (demo_host found).
Proof. intros c dom id. reflexivity. Qed.

Lemma summarize_settles_witness :
  (hidden (snd (summarize (demo_host []) demo_world)) "loader"
   ∧ ((shown (snd (summarize (demo_host []) demo_world)) "result"
       ∧ hidden (snd (summarize (demo_host []) demo_world)) "error")
      ∨ (hidden (snd (summarize (demo_host []) demo_world)) "result"
         ∧ shown (snd (summarize (demo_host []) demo_world)) "error")))
  ∧ fst (summarize rejecting_host demo_world)
    = Raise (TypeError rejecting_host undefined "message").
Proof.
  split.
  - apply (proj1 (proj2 (proj2 (proj2
             (summarize_settles (demo_host []) demo_world))))).
    + apply demo_host_undisturbed.
    + apply demo_world_has. simpl. tauto.
    + apply demo_world_has. simpl. tauto.
    + apply demo_world_has. simpl. tauto.
  - apply (proj1 (proj2 (summarize_settles rejecting_host demo_world))).
    exists undefined. split; reflexivity.
Defined.

Lemma summarize_nothing_to_send_witness :
  fst (summarize (demo_host []) demo_world) = Return tt
  ∧ requests (snd (summarize (demo_host []) demo_world)) = []
  ∧ shown (snd (summarize (demo_host []) demo_world)) "error"
  ∧ content (snd (summarize (demo_host []) demo_world)) "error"
    = Some [Text (js "Failed to scrape the page.")]
  ∧ hidden (snd (summarize (demo_host []) demo_world)) "loader"
  ∧ hidden (snd (summarize (demo_host []) demo_world)) "result"
  ∧ elements (snd (summarize (demo_host []) demo_world)) !! "oneLine"%string
    = elements demo_world !! "oneLine"%string.
Proof.
  destruct (summarize_nothing_to_send (demo_host []) demo_world
              (new_Error (js "Failed to scrape the page."))
              (js "Failed to scrape the page.")
              (or_introl eq_refl) eq_refl)
    as (Hret & Hreq & _ & Herr & Hload & Halone).
  destruct (Halone (demo_host_alone [])) as [Hres Hrest].
  split; [exact Hret|]. split; [exact Hreq|].
  split; [apply Herr; eexists; vm_compute; reflexivity|].
  split; [apply Herr; eexists; vm_compute; reflexivity|].
  split; [apply Hload; eexists; vm_compute; reflexivity|].
  split; [apply Hres, demo_world_has; simpl; tauto|].
  apply Hrest; discriminate.
Defined.

Lemma summarize_request_is_bounded_witness :
  demo_scraped ∈ requests demo_world
  ∨ (demo_scraped = demo_scraped
     ∧ 0 < length (reviews demo_scraped) ≤ 30
     ∧ Forall (fun t => 20 < length t) (reviews demo_scraped)
     ∧ NoDup (reviews demo_scraped)).
Proof.
  refine (summarize_request_is_bounded
            (demo_host [ {| result := Some demo_scraped |} ]) demo_world
            page_one_review demo_scraped eq_refl injected_page_one_review
            demo_scraped _).
  assert (requests
            (snd (summarize (demo_host [ {| result := Some demo_scraped |} ])
                            demo_world)) = [demo_scraped]) as ->
    by reflexivity.
  constructor.
Defined.

Lemma summarize_backend_refusal_witness :
  fst (summarize (demo_host [ {| result := Some demo_scraped |} ])
                 demo_world) = Return tt
  ∧ requests (snd (summarize
                     (demo_host [ {| result := Some demo_scraped |} ])
                     demo_world))
    = [demo_scraped]
  ∧ shown (snd (summarize
                  (demo_host [ {| result := Some demo_scraped |} ])
                  demo_world)) "error"
  ∧ content (snd (summarize
                    (demo_host [ {| result := Some demo_scraped |} ])
                    demo_world)) "error"
    = Some [Text (js "Backend request failed: 500 Internal Server Error")]
  ∧ hidden (snd (summarize
                   (demo_host [ {| result := Some demo_scraped |} ])
                   demo_world)) "result"
  ∧ elements (snd (summarize
                     (demo_host [ {| result := Some demo_scraped |} ])
                     demo_world)) !! "oneLine"%string
    = elements demo_world !! "oneLine"%string.
Proof.
  assert (Hne : reviews demo_scraped ≠ []) by (simpl; discriminate).
  destruct (summarize_backend_refusal
              (demo_host [ {| result := Some demo_scraped |} ]) demo_world
              demo_scraped _ eq_refl Hne eq_refl eq_refl)
    as (Hret & Hreq & _ & Herr & _ & Halone).
  destruct (Halone (demo_host_alone _)) as [Hres Hrest].
  split; [exact Hret|]. split; [exact Hreq|].
  split; [apply Herr; eexists; vm_compute; reflexivity|].
  split; [apply Herr; eexists; vm_compute; reflexivity|].
  split; [apply Hres, demo_world_has; simpl; tauto|].
  apply Hrest; discriminate.
Defined.

Lemma renderResults_lists_witness :
  ∃ w', renderResults (demo_host []) demo_data demo_world = (Return tt, w')
        ∧ content w' "prosList"
          = Some [Li (js "Long battery life"); Li (js "Sturdy build")]
        ∧ content w' "consList" = Some [Li (js "No clear cons detected.")].
Proof.
  destruct (proj1 (renderResults_lists (demo_host []) demo_data demo_world I))
    as (w' & E & Hp & Hc & _).
  - apply demo_world_has. simpl. tauto.
  - apply demo_world_has. simpl. tauto.
  - exists w'. split; [exact E|]. split; [exact Hp|exact Hc].
Defined.
End PopupFacts.
